(** * Batch SHA-1 hasher (hasher.py): the OpenCL kernel and its host driver

    A shallow embedding of [src/hasher.py]: the [sha1_kernel] OpenCL C
    procedure held in [kernel_code], and the Python host functions
    [list_opencl_devices], [select_best_device], [generate_unique_filename],
    [scan_directory], [perform_hashing] and [main].

    Machine integers are [Z] with the wrap-around written out; buffers and
    arrays are lists of [Z] read with [nth] and written with [store];
    counted [for] loops are [fold_left] over the list of index values. *)

From Stdlib Require Import ZArith List String Ascii Bool Lia.
From Stdlib Require Import Permutation Sorted DecimalString.
Import ListNotations.

Local Open Scope Z_scope.

(** ** Machine arithmetic and arrays *)

Module Machine.

(** OpenCL C [uint]: 32-bit unsigned. *)
Definition uint (x : Z) : Z := x mod 2 ^ 32.

(** OpenCL C [int]: 32-bit two's complement. *)
Definition int (x : Z) : Z := (x + 2 ^ 31) mod 2 ^ 32 - 2 ^ 31.

(** OpenCL C [uchar]: 8-bit unsigned. *)
Definition uchar (x : Z) : Z := x mod 2 ^ 8.

(** [a[i]] for an array held as a list. *)
Definition load (a : list Z) (i : Z) : Z := nth (Z.to_nat i) a 0.

(** [a[i] = v]; the kernel only writes inside its arrays. *)
Fixpoint store_nat (a : list Z) (i : nat) (v : Z) : list Z :=
  match a, i with
  | [], _ => []
  | _ :: t, O => v :: t
  | x :: t, S j => x :: store_nat t j v
  end.

Definition store (a : list Z) (i : Z) (v : Z) : list Z :=
  store_nat a (Z.to_nat i) v.

(** The index values of [for (int i = lo; i < hi; i++)]. *)
Definition range (lo hi : Z) : list Z :=
  map (fun n => lo + Z.of_nat n) (seq 0 (Z.to_nat (hi - lo))).

End Machine.

(** ** The kernel [sha1_kernel] of [kernel_code] *)

Module Kernel.
Import Machine.

Definition h0_init : Z := 0x67452301.
Definition h1_init : Z := 0xEFCDAB89.
Definition h2_init : Z := 0x98BADCFE.
Definition h3_init : Z := 0x10325476.
Definition h4_init : Z := 0xC3D2E1F0.

Definition k : list Z := [0x5A827999; 0x6ED9EBA1; 0x8F1BBCDC; 0xCA62C1D6].

(** [get_global_id(0)]: the host launches the kernel with global size
    [(1,)], so the single work-item has id 0. *)
Definition idx : Z := 0.

(** The running state [h0 .. h4]. *)
Definition state : Type := (Z * Z * Z * Z * Z)%type.

Definition init_state : state :=
  (h0_init, h1_init, h2_init, h3_init, h4_init).

(** Lines 30-39: fill [chunk] from [input], the byte at [pos == length]
    becoming 0x80 and the ones after it 0.  [chunk] is declared outside the
    chunk loop but every cell is assigned here before it is read, so the
    array starts each iteration from arbitrary contents (zeros here). *)
Definition fill_chunk (input : list Z) (length chunk_idx : Z) : list Z :=
  fold_left
    (fun chunk i =>
       let pos := int (chunk_idx * 64 + i) in
       if pos <? length then store chunk i (load input pos)
       else if pos =? length then store chunk i 0x80
       else store chunk i 0)
    (range 0 64) (repeat 0 64).

(** Lines 42-48: in the last chunk, [uint bit_len = length * 8] written
    low byte first into [chunk[63] .. chunk[56]]. *)
Definition pad_length (chunk : list Z) (length chunk_idx : Z) : list Z :=
  if chunk_idx =? Z.quot length 64 then
    fst (fold_left
           (fun (st : list Z * Z) i =>
              let '(chunk, bit_len) := st in
              (store chunk (63 - i) (uchar (Z.land bit_len 0xFF)),
               Z.shiftr bit_len 8))
           (range 0 8) (chunk, uint (int (length * 8))))
  else chunk.

(** The 64 bytes the compression works on in iteration [chunk_idx]. *)
Definition build_chunk (input : list Z) (length chunk_idx : Z) : list Z :=
  pad_length (fill_chunk input length chunk_idx) length chunk_idx.

(** Lines 51-56: [w[0..15]], big-endian words of the chunk. *)
Definition load_words (chunk : list Z) (w : list Z) : list Z :=
  fold_left
    (fun w i =>
       store w i
         (uint (Z.lor (Z.lor (Z.lor (Z.shiftl (load chunk (4 * i)) 24)
                                    (Z.shiftl (load chunk (4 * i + 1)) 16))
                             (Z.shiftl (load chunk (4 * i + 2)) 8))
                      (load chunk (4 * i + 3)))))
    (range 0 16) w.

(** Lines 59-62: [w[16..79]]. *)
Definition extend_words (w : list Z) : list Z :=
  fold_left
    (fun w i =>
       let temp :=
         Z.lxor (Z.lxor (Z.lxor (load w (i - 3)) (load w (i - 8)))
                        (load w (i - 14)))
                (load w (i - 16)) in
       store w i (Z.lor (uint (Z.shiftl temp 1)) (Z.shiftr temp 31)))
    (range 16 80) w.

Definition schedule (chunk : list Z) : list Z :=
  extend_words (load_words chunk (repeat 0 80)).

(** Lines 72-93: one round of the main loop. *)
Definition round (w : list Z) (st : state) (i : Z) : state :=
  let '(a, b, c, d, e) := st in
  let '(f, k_temp) :=
    if i <? 20 then
      (Z.lor (Z.land b c) (Z.land (uint (Z.lnot b)) d), load k 0)
    else if i <? 40 then
      (Z.lxor (Z.lxor b c) d, load k 1)
    else if i <? 60 then
      (Z.lor (Z.lor (Z.land b c) (Z.land b d)) (Z.land c d), load k 2)
    else
      (Z.lxor (Z.lxor b c) d, load k 3) in
  let temp :=
    uint (Z.lor (uint (Z.shiftl a 5)) (Z.shiftr a 27) + f + e + k_temp
          + load w i) in
  (temp, a, Z.lor (uint (Z.shiftl b 30)) (Z.shiftr b 2), c, d).

(** Lines 50-100: the work done on one chunk. *)
Definition process_chunk (h : state) (chunk : list Z) : state :=
  let '(h0, h1, h2, h3, h4) := h in
  let w := schedule chunk in
  let '(a, b, c, d, e) := fold_left (round w) (range 0 80) h in
  (uint (h0 + a), uint (h1 + b), uint (h2 + c), uint (h3 + d),
   uint (h4 + e)).

(** Line 29: the values [chunk_idx] takes,
    [for (chunk_idx = 0; chunk_idx <= length / 64; chunk_idx++)]. *)
Definition chunk_indices (length : Z) : list Z :=
  range 0 (Z.quot length 64 + 1).

(** Lines 29-101. *)
Definition chunk_loop (input : list Z) (length : Z) : state :=
  fold_left
    (fun h chunk_idx => process_chunk h (build_chunk input length chunk_idx))
    (chunk_indices length) init_state.

(** Lines 104-110: the five words, four big-endian bytes each. *)
Definition write_output (h : state) (output : list Z) : list Z :=
  let '(h0, h1, h2, h3, h4) := h in
  let hash := [h0; h1; h2; h3; h4] in
  fold_left
    (fun output i =>
       let o1 := store output (idx * 20 + i * 4)
                       (uchar (Z.shiftr (load hash i) 24)) in
       let o2 := store o1 (idx * 20 + i * 4 + 1)
                       (uchar (Z.shiftr (load hash i) 16)) in
       let o3 := store o2 (idx * 20 + i * 4 + 2)
                       (uchar (Z.shiftr (load hash i) 8)) in
       store o3 (idx * 20 + i * 4 + 3) (uchar (load hash i)))
    (range 0 5) output.

(** The kernel: [input] and [lengths] are the read-only buffers, the
    result is the 20-byte [output] buffer after the work-item has run. *)
Definition sha1_kernel (input : list Z) (lengths : list Z) : list Z :=
  let length := load lengths idx in
  write_output (chunk_loop input length) (repeat 0 20).

(** The chunks the loop compresses, in order. *)
Definition processed_chunks (input : list Z) (length : Z) : list (list Z) :=
  map (build_chunk input length) (chunk_indices length).

(** *** The work-item on a device

    [chunk] and [w] are declared without an initialiser (lines 26-27) and
    live across the iterations of the chunk loop; the output buffer is
    created by the host without contents (line 164).  What these cells hold
    when the work-item starts is not fixed by the program: it is what the
    device, or an earlier launch, left there. *)
Record memory : Type := mkMemory {
  chunk_cells : list Z;                         (* uchar chunk[64] *)
  w_cells : list Z;                             (* uint w[80] *)
  output_cells : list Z;                        (* the 20-byte output buffer *)
  chunk_cells_length : List.length chunk_cells = 64%nat;
  w_cells_length : List.length w_cells = 80%nat;
  output_cells_length : List.length output_cells = 20%nat
}.

(** Lines 30-39 on the array as the previous iteration left it. *)
Definition fill_chunk_from (chunk : list Z) (input : list Z)
           (length chunk_idx : Z) : list Z :=
  fold_left
    (fun chunk i =>
       let pos := int (chunk_idx * 64 + i) in
       if pos <? length then store chunk i (load input pos)
       else if pos =? length then store chunk i 0x80
       else store chunk i 0)
    (range 0 64) chunk.

(** Lines 65-100 with the schedule in [w]. *)
Definition rounds_and_add (w : list Z) (h : state) : state :=
  let '(h0, h1, h2, h3, h4) := h in
  let '(a, b, c, d, e) := fold_left (round w) (range 0 80) h in
  (uint (h0 + a), uint (h1 + b), uint (h2 + c), uint (h3 + d),
   uint (h4 + e)).

(** One iteration of the chunk loop (lines 30-100) on the two arrays and
    the running state. *)
Definition chunk_iteration (input : list Z) (length : Z)
           (arrays : list Z * list Z * state) (chunk_idx : Z)
  : list Z * list Z * state :=
  let '(chunk, w, h) := arrays in
  let chunk :=
    pad_length (fill_chunk_from chunk input length chunk_idx) length chunk_idx in
  let w := extend_words (load_words chunk w) in
  (chunk, w, rounds_and_add w h).

(** The kernel started on the memory [m]: the 20 bytes of the output buffer
    after the work-item has run. *)
Definition sha1_kernel_from (m : memory) (input : list Z) (lengths : list Z)
  : list Z :=
  let length := load lengths idx in
  let '(_, _, h) :=
    fold_left (chunk_iteration input length) (chunk_indices length)
              (chunk_cells m, w_cells m, init_state) in
  write_output h (output_cells m).

End Kernel.

(** ** Bytes, hexadecimal rendering *)

Module Hex.

Definition hex_digit (n : Z) : ascii :=
  nth (Z.to_nat n)
      ["0"; "1"; "2"; "3"; "4"; "5"; "6"; "7"; "8"; "9";
       "a"; "b"; "c"; "d"; "e"; "f"]%char "?"%char.

(** [format(byte, '02x')] for a [uint8]. *)
Definition format_02x (byte : Z) : string :=
  String (hex_digit (byte / 16)) (String (hex_digit (byte mod 16)) EmptyString).

(** [''.join(format(byte, '02x') for byte in output_data)]. *)
Definition hash_hex (output_data : list Z) : string :=
  fold_right (fun byte acc => (format_02x byte ++ acc)%string) EmptyString
             output_data.

(** The bytes of an ASCII string. *)
Definition bytes_of_string (s : string) : list Z :=
  map (fun c => Z.of_nat (nat_of_ascii c)) (list_ascii_of_string s).

End Hex.

(** ** The reference algorithm, for comparison with the kernel *)

Module FIPS180.

(** Follows the words of FIPS 180 (sections 2.2.2, 4.1.1, 4.2.1, 5.1.1,
    5.2.1, 5.3.1 and 6.1.2), not the kernel: it is the function the
    kernel's digest is compared with. *)

Definition add32 (x y : Z) : Z := (x + y) mod 2 ^ 32.

Definition ROTL (n x : Z) : Z :=
  Z.lor (Z.shiftl x n mod 2 ^ 32) (Z.shiftr x (32 - n)).

Definition Ch (x y z : Z) : Z :=
  Z.lxor (Z.land x y) (Z.land (Z.lnot x mod 2 ^ 32) z).

Definition Parity (x y z : Z) : Z := Z.lxor (Z.lxor x y) z.

Definition Maj (x y z : Z) : Z :=
  Z.lxor (Z.lxor (Z.land x y) (Z.land x z)) (Z.land y z).

Definition f (t : nat) : Z -> Z -> Z -> Z :=
  if (t <? 20)%nat then Ch
  else if (t <? 40)%nat then Parity
  else if (t <? 60)%nat then Maj
  else Parity.

Definition K (t : nat) : Z :=
  if (t <? 20)%nat then 0x5a827999
  else if (t <? 40)%nat then 0x6ed9eba1
  else if (t <? 60)%nat then 0x8f1bbcdc
  else 0xca62c1d6.

Definition H_init : list Z :=
  [0x67452301; 0xefcdab89; 0x98badcfe; 0x10325476; 0xc3d2e1f0].

(** Big-endian bytes of [x], [n] of them. *)
Fixpoint be_bytes (n : nat) (x : Z) : list Z :=
  match n with
  | O => []
  | S m => (x / 2 ^ (8 * Z.of_nat m)) mod 256 :: be_bytes m x
  end.

(** 5.1.1: the bit 1, then the least number of zero bits that brings the
    length to 448 mod 512, then the length in bits as a 64-bit word. *)
Definition pad (M : list Z) : list Z :=
  let l := Z.of_nat (List.length M) in
  M ++ [0x80] ++ repeat 0 (Z.to_nat ((55 - l) mod 64)) ++ be_bytes 8 (8 * l).

(** 5.2.1: [n] blocks of 64 bytes. *)
Fixpoint parse (n : nat) (bytes : list Z) : list (list Z) :=
  match n with
  | O => []
  | S m => firstn 64 bytes :: parse m (skipn 64 bytes)
  end.

Fixpoint be_word (bytes : list Z) : Z :=
  match bytes with
  | [] => 0
  | b :: rest => b * 2 ^ (8 * Z.of_nat (List.length rest)) + be_word rest
  end.

(** The sixteen words [M_0 .. M_15] of a block. *)
Fixpoint words (n : nat) (block : list Z) : list Z :=
  match n with
  | O => []
  | S m => be_word (firstn 4 block) :: words m (skipn 4 block)
  end.

(** 6.1.2 step 1: [W] extended by [n] more words. *)
Fixpoint extend (n : nat) (W : list Z) : list Z :=
  match n with
  | O => W
  | S m =>
      let t := List.length W in
      let Wt :=
        ROTL 1 (Z.lxor (Z.lxor (Z.lxor (nth (t - 3) W 0) (nth (t - 8) W 0))
                               (nth (t - 14) W 0))
                       (nth (t - 16) W 0)) in
      extend m (W ++ [Wt])
  end.

Definition W (block : list Z) : list Z := extend 64 (words 16 block).

(** 6.1.2 step 3, for the rounds [t, t+1, ...] with the words [Ws]. *)
Fixpoint rounds (t : nat) (Ws : list Z) (a b c d e : Z) : list Z :=
  match Ws with
  | [] => [a; b; c; d; e]
  | Wt :: rest =>
      let T := add32 (add32 (add32 (add32 (ROTL 5 a) (f t b c d)) e) (K t)) Wt in
      rounds (S t) rest T a (ROTL 30 b) c d
  end.

(** 6.1.2: the hash value after one more block. *)
Definition compress (H : list Z) (block : list Z) : list Z :=
  match H with
  | [a; b; c; d; e] => map (fun p => add32 (fst p) (snd p))
                           (combine H (rounds 0 (W block) a b c d e))
  | _ => H
  end.

Definition SHA1 (M : list Z) : list Z :=
  let padded := pad M in
  let N := (List.length padded / 64)%nat in
  flat_map (be_bytes 4) (fold_left compress (parse N padded) H_init).

End FIPS180.

(** ** The host program *)

Module Host.
Import Machine.
Local Open Scope string_scope.

(** What the program reads of a [pyopencl] device. *)
Record Device : Type := mkDevice {
  name : string;
  vendor : string;
  device_type : string;   (* cl.device_type.to_string(device.type) *)
  global_mem_size : Z
}.

(** Exceptions that the program raises or lets through. *)
Inductive exn : Type :=
| FileExistsError            (* raised by generate_unique_filename *)
| IndexError                 (* sorted_devices[0] on an empty list *)
| OSError (file_path : string)    (* open / read of a file fails *)
| OverflowError (file_path : string) (* length outside int32 *)
| CLError (file_path : string)    (* a pyopencl call fails for this file *)
| CLQueryError               (* cl.get_platforms() or get_devices() fails *)
| CLSetupError               (* cl.Context, cl.CommandQueue or build() fails *)
| ScanError (path : string). (* os.scandir or is_file() fails in the scan *)

Definition result (A : Type) : Type := (exn + A)%type.
Definition ret {A : Type} (a : A) : result A := inr a.
Definition raise {A : Type} (e : exn) : result A := inl e.
Definition bind {A B : Type} (m : result A) (k : A -> result B) : result B :=
  match m with
  | inl e => inl e
  | inr a => k a
  end.

Notation "x <- m ;; k" := (bind m (fun x => k))
  (at level 61, m at next level, right associativity).

(** *** Strings *)

Definition decimal (n : nat) : string := NilZero.string_of_uint (Nat.to_uint n).

(** [f"{i:03d}"]. *)
Definition format_03d (i : nat) : string :=
  let s := decimal i in
  string_of_list_ascii (repeat "0"%char (3 - String.length s)) ++ s.

Definition lower_char (c : ascii) : ascii :=
  let n := nat_of_ascii c in
  if andb (65 <=? n)%nat (n <=? 90)%nat then ascii_of_nat (n + 32) else c.

(** [str.lower] on ASCII text. *)
Fixpoint lower (s : string) : string :=
  match s with
  | EmptyString => EmptyString
  | String c rest => String (lower_char c) (lower rest)
  end.

(** [s.startswith(p)]. *)
Definition startswith (s p : string) : bool := String.prefix p s.

Definition ends_with_sep (a : string) : bool :=
  match rev (list_ascii_of_string a) with
  | c :: _ => Ascii.eqb c "/"
  | [] => false
  end.

(** [os.path.join(a, b)] (POSIX). *)
Definition path_join (a b : string) : string :=
  if startswith b "/" then b
  else if orb (String.eqb a "") (ends_with_sep a) then a ++ b
  else a ++ "/" ++ b.

Definition isabs (p : string) : bool := startswith p "/".

Fixpoint drop_while (P : ascii -> bool) (l : list ascii) : list ascii :=
  match l with
  | [] => []
  | c :: rest => if P c then drop_while P rest else l
  end.

(** [os.path.dirname(p)] (POSIX). *)
Definition dirname (p : string) : string :=
  let is_sep := fun c => Ascii.eqb c "/" in
  let head_rev := drop_while (fun c => negb (is_sep c)) (rev (list_ascii_of_string p)) in
  if forallb is_sep head_rev then string_of_list_ascii (rev head_rev)
  else string_of_list_ascii (rev (drop_while is_sep head_rev)).

(** *** Listing and selecting devices *)

(** [enumerate(devices)]. *)
Definition enumerate {A : Type} (l : list A) : list (nat * A) :=
  combine (seq 0 (List.length l)) l.

(** The lines [list_opencl_devices] prints. *)
Definition list_opencl_devices (platforms : list (list Device)) : list string :=
  flat_map
    (fun devices =>
       map (fun p : nat * Device =>
              "Device ID: " ++ decimal (fst p) ++ ", Name: " ++ name (snd p)
              ++ ", Type: " ++ device_type (snd p))
           (enumerate devices))
    platforms.

(** The sort key of [select_best_device]. *)
Definition sort_key : Type := (Z * bool * bool * bool)%type.

Definition key (d : Device) : sort_key :=
  (- global_mem_size d,
   startswith (lower (vendor d)) "nvidia",
   startswith (lower (vendor d)) "amd",
   startswith (lower (vendor d)) "intel").

(** [False < True]. *)
Definition bool_lt (x y : bool) : bool := andb (negb x) y.

(** Python's [<] on the key tuples: lexicographic. *)
Definition key_lt (k1 k2 : sort_key) : bool :=
  let '(m1, n1, a1, i1) := k1 in
  let '(m2, n2, a2, i2) := k2 in
  if (m1 <? m2)%Z then true else if (m2 <? m1)%Z then false
  else if bool_lt n1 n2 then true else if bool_lt n2 n1 then false
  else if bool_lt a1 a2 then true else if bool_lt a2 a1 then false
  else bool_lt i1 i2.

(** [sorted(l, key=key)]: the stable sort, as insertion from the right;
    an element goes in front of the ones already placed that are not
    smaller, which all followed it in [l]. *)
Fixpoint insert (d : Device) (l : list Device) : list Device :=
  match l with
  | [] => [d]
  | y :: rest => if key_lt (key y) (key d) then y :: insert d rest
                 else d :: l
  end.

Fixpoint sorted (l : list Device) : list Device :=
  match l with
  | [] => []
  | d :: rest => insert d (sorted rest)
  end.

Definition select_best_device (devices : list Device) : result Device :=
  let sorted_devices := sorted devices in
  match sorted_devices with
  | d :: _ => ret d
  | [] => raise IndexError
  end.

(** *** Output file name *)

Fixpoint try_names (path_exists : string -> bool) (base_name directory : string)
         (candidates : list nat) : result string :=
  match candidates with
  | [] => raise FileExistsError
  | i :: rest =>
      let filename := base_name ++ "_" ++ format_03d i ++ ".txt" in
      let full_path := path_join directory filename in
      if negb (path_exists full_path) then ret full_path
      else try_names path_exists base_name directory rest
  end.

Definition generate_unique_filename (path_exists : string -> bool)
           (base_name directory : string) : result string :=
  try_names path_exists base_name directory (seq 0 1000).

(** *** Hashing a batch *)

(** What the program sees of its surroundings. *)
Record World : Type := mkWorld {
  platforms : list (list Device);  (* cl.get_platforms(), each with its get_devices() *)
  get_platforms_fault : bool;      (* cl.get_platforms() raises *)
  get_devices_fault : nat -> bool; (* get_devices() raises on the platform
                                      at this place of the list *)
  setup_fault : Device -> bool;    (* cl.Context, cl.CommandQueue or
                                      cl.Program(...).build() raises for
                                      this device *)
  getcwd : string;
  path_exists : string -> bool;    (* os.path.exists *)
  isdir : string -> bool;          (* os.path.isdir *)
  access_R : string -> bool;       (* os.access(_, os.R_OK) *)
  access_W : string -> bool;       (* os.access(_, os.W_OK) *)
  scan_directory : string -> bool -> option (list string);
                                   (* the readable files found under a path;
                                      None when the scan raises *)
  read_file : string -> option (list Z);
                                   (* open(_, 'rb').read(); None when it raises *)
  cl_fault : Device -> string -> bool;
                                   (* a pyopencl call raises while this file
                                      is hashed on this device *)
  stale_memory : Device -> string -> Kernel.memory
                                   (* what the uninitialised arrays and the
                                      output buffer hold on this device when
                                      the kernel is launched for this file *)
}.

(** One iteration of the loop of [perform_hashing] (lines 158-179); the
    context is the device it was created for.  The input buffer of line 163
    takes its size from [file_data], and OpenCL refuses to create a buffer
    of size 0 (CL_INVALID_BUFFER_SIZE): for an empty file the call raises.
    [np.int32] holds the length: a length outside int32 is refused. *)
Definition hash_file (w : World) (context : Device) (file_path : string)
  : result (string * string) :=
  file_data <- match read_file w file_path with
               | Some data => ret data
               | None => raise (OSError file_path)
               end ;;
  _ <- match file_data with
       | [] => raise (CLError file_path)
       | _ :: _ => ret tt
       end ;;
  _ <- (if cl_fault w context file_path then raise (CLError file_path)
        else ret tt) ;;
  lengths <- (let n := Z.of_nat (List.length file_data) in
              if (n <? 2 ^ 31)%Z then ret [n]
              else raise (OverflowError file_path)) ;;
  let output_data :=
    Kernel.sha1_kernel_from (stale_memory w context file_path)
                            file_data lengths in
  let hash_hex := Hex.hash_hex output_data in
  ret (file_path, hash_hex).

Fixpoint hashing_loop (w : World) (context : Device)
         (file_paths : list string) (hashes : list (string * string))
  : result (list (string * string)) :=
  match file_paths with
  | [] => ret hashes
  | file_path :: rest =>
      entry <- hash_file w context file_path ;;
      hashing_loop w context rest (hashes ++ [entry])
  end.

Definition perform_hashing (w : World) (context : Device)
           (file_paths : list string) : result (list (string * string)) :=
  hashing_loop w context file_paths [].

(** *** [main] *)

Record Args : Type := mkArgs {
  path : option string;
  list_flag : bool;          (* -l / --list *)
  device : option Z;         (* -d / --device *)
  output : option string;    (* -o / --output *)
  recursive : bool           (* -r / --recursive *)
}.

(** The messages [main] prints before it returns early. *)
Inductive message : Type :=
| PathRequired                      (* "Error: Path to the directory is required." *)
| NotADirectory (p : string)        (* "Error: {p} is not a directory." *)
| NoReadPermission (p : string)     (* "Error: No read permission for directory {p}." *)
| OutputExists (p : string)         (* "Error: The file {p} already exists." *)
| NoWritePermission (dir : string)  (* "Error: No write permission for directory {dir}." *)
| NoPlatforms                       (* "No OpenCL platforms found." *)
| NoDevices                         (* "No OpenCL devices found." *)
| DeviceOutOfRange (d : Z).         (* "Error: Device ID {d} is out of range." *)

Inductive outcome : Type :=
| Listed (lines : list string)      (* --list *)
| Stopped (m : message)             (* message printed, nothing hashed *)
| Uncaught (e : exn)                (* exception leaves main *)
| HashingError (e : exn)            (* "Error during hashing: {e}", nothing written *)
| Written (output_path : string) (hashes : list (string * string)).

(** Lines 219-223: no [--output] given. *)
Definition default_output (w : World) : outcome + string :=
  let output_dir := getcwd w in
  let base_name := "output" in
  let output_path := path_join output_dir (base_name ++ ".csv") in
  if path_exists w output_path then
    match generate_unique_filename (path_exists w) base_name output_dir with
    | inr p => inr p
    | inl e => inl (Uncaught e)
    end
  else inr output_path.

(** Lines 211-223; [if args.output] is false for [None] and for the empty
    string. *)
Definition choose_output (w : World) (args : Args) : outcome + string :=
  match output args with
  | Some o =>
      if String.eqb o "" then default_output w
      else
        let output_path := if negb (isabs o) then path_join (getcwd w) o else o in
        if path_exists w output_path then inl (Stopped (OutputExists output_path))
        else inr output_path
  | None => default_output w
  end.

(** Lines 240-246. *)
Definition select_device (devices : list Device) (device_arg : option Z)
  : outcome + Device :=
  match device_arg with
  | Some n =>
      if orb (n <? 0)%Z (n >=? Z.of_nat (List.length devices))%Z then
        inl (Stopped (DeviceOutOfRange n))
      else
        match nth_error devices (Z.to_nat n) with
        | Some d => inr d
        | None => inl (Uncaught IndexError)
        end
  | None =>
      match select_best_device devices with
      | inr d => inr d
      | inl e => inl (Uncaught e)
      end
  end.

(** Lines 231-238: the devices the run chooses from. *)
Definition find_devices (w : World) : outcome + list Device :=
  match platforms w with
  | [] => inl (Stopped NoPlatforms)
  | platform0 :: _ =>
      match platform0 with
      | [] => inl (Stopped NoDevices)
      | _ :: _ => inr platform0
      end
  end.

(** [list_opencl_devices()] as [main] calls it: [cl.get_platforms()], then
    [get_devices()] on every platform in turn.  When one of these calls
    raises, the exception leaves [main], after the lines of the platforms in
    front of the failing one. *)
Definition run_listing (w : World) : outcome :=
  if orb (get_platforms_fault w)
         (existsb (get_devices_fault w) (seq 0 (List.length (platforms w))))
  then Uncaught CLQueryError
  else Listed (list_opencl_devices (platforms w)).

(** Lines 231-238 with their two calls: [cl.get_platforms()], and
    [get_devices()] on the first platform when there is one; neither is
    inside a [try]. *)
Definition query_devices (w : World) : outcome + list Device :=
  if get_platforms_fault w then inl (Uncaught CLQueryError)
  else
    match platforms w with
    | [] => find_devices w
    | _ :: _ =>
        if get_devices_fault w 0 then inl (Uncaught CLQueryError)
        else find_devices w
    end.

(** Lines 262-281. *)
Definition hash_and_write (w : World) (context : Device) (output_path : string)
           (files_to_process : list string) : outcome :=
  match perform_hashing w context files_to_process with
  | inr hashes => Written output_path hashes
  | inl e => HashingError e
  end.

(** Lines 193-281.  The calls of lines 231-258 stand outside the [try]:
    what they raise leaves [main]. *)
Definition main (w : World) (args : Args) : outcome :=
  if list_flag args then run_listing w else
  match path args with
  | None => Stopped PathRequired
  | Some p =>
      if String.eqb p "" then Stopped PathRequired else
      if negb (isdir w p) then Stopped (NotADirectory p) else
      if negb (access_R w p) then Stopped (NoReadPermission p) else
      match choose_output w args with
      | inl stop => stop
      | inr output_path =>
          let output_dir := dirname output_path in
          if negb (access_W w output_dir) then Stopped (NoWritePermission output_dir) else
          match query_devices w with
          | inl stop => stop
          | inr devices =>
              match select_device devices (device args) with
              | inl stop => stop
              | inr selected_device =>
                  if setup_fault w selected_device then Uncaught CLSetupError
                  else
                    let context := selected_device in
                    match scan_directory w p (recursive args) with
                    | None => Uncaught (ScanError p)
                    | Some files_to_process =>
                        hash_and_write w context output_path files_to_process
                    end
              end
          end
      end
  end.

End Host.

(** ** Notions used to state the properties *)

Module Props.
Import Machine Kernel.

(** The byte the kernel puts in a chunk for message position [pos]
    (the three cases of lines 32-38). *)
Definition chunk_byte (input : list Z) (length pos : Z) : Z :=
  if pos <? length then load input pos
  else if pos =? length then 0x80
  else 0.

(** Every element is a byte. *)
Definition all_bytes (l : list Z) : Prop := Forall (fun b => 0 <= b < 256) l.

(** The running state as the list of its five words. *)
Definition state_list (h : state) : list Z :=
  let '(a, b, c, d, e) := h in [a; b; c; d; e].

(** The word the kernel stores in [w[i]] for [i < 16] (lines 52-55). *)
Definition kernel_word (chunk : list Z) (i : Z) : Z :=
  uint (Z.lor (Z.lor (Z.lor (Z.shiftl (load chunk (4 * i)) 24)
                            (Z.shiftl (load chunk (4 * i + 1)) 16))
                     (Z.shiftl (load chunk (4 * i + 2)) 8))
              (load chunk (4 * i + 3))).

(** One iteration of the extension loop (lines 60-61). *)
Definition extend_step (w : list Z) (i : Z) : list Z :=
  let temp :=
    Z.lxor (Z.lxor (Z.lxor (load w (i - 3)) (load w (i - 8)))
                   (load w (i - 14)))
           (load w (i - 16)) in
  store w i (Z.lor (uint (Z.shiftl temp 1)) (Z.shiftr temp 31)).


Import Host.

(** The vendor is one of the three the sort key looks for. *)
Definition recognized (d : Device) : bool :=
  orb (startswith (lower (vendor d)) "nvidia")
      (orb (startswith (lower (vendor d)) "amd")
           (startswith (lower (vendor d)) "intel")).

(** [not (k2 < k1)]: the order a sorted list respects. *)
Definition key_le (d1 d2 : Device) : Prop := key_lt (key d2) (key d1) = false.

(** A key as one number: the three flags are the low bits. *)
Definition key_code (k : sort_key) : Z :=
  let '(m, n, a, i) := k in
  8 * m + (if n then 4 else 0) + (if a then 2 else 0) + (if i then 1 else 0).

(** The line printed for a device. *)
Definition device_line (p : nat * Device) : string :=
  ("Device ID: " ++ decimal (fst p) ++ ", Name: " ++ name (snd p)
   ++ ", Type: " ++ device_type (snd p))%string.

(** The [i]-th name [generate_unique_filename] tries. *)
Definition candidate (base_name directory : string) (i : nat) : string :=
  path_join directory (base_name ++ "_" ++ format_03d i ++ ".txt")%string.

(** The number read back from the first three characters of a string. *)
Definition decode_03d (s : string) : option nat :=
  option_map Nat.of_uint (NilZero.uint_of_string (substring 0 3 s)).

(** The path used when [--output] is absent and nothing is in the way. *)
Definition default_path (w : World) : string :=
  path_join (getcwd w) "output.csv".

(** What a successful iteration appends for a file with content [data]. *)
Definition digest_entry (file_path : string) (data : list Z) : string * string :=
  (file_path,
   Hex.hash_hex (Kernel.sha1_kernel data [Z.of_nat (List.length data)])).

End Props.

(** ** Concrete inputs *)

Module Examples.
Import Host.
Local Open Scope string_scope.

(** The 56-byte message of the second example of FIPS 180. *)
Definition fips_two_block_message : list Z :=
  Hex.bytes_of_string
    "abcdbcdecdefdefgefghfghighijhijkijkljklmklmnlmnomnopnopq".

(** Three devices with memories 1, 2 and 4. *)
Definition device_1 : Device := mkDevice "Alpha" "NVIDIA Corporation" "GPU" 1.
Definition device_2 : Device := mkDevice "Beta" "Intel(R) Corporation" "GPU" 2.
Definition device_4 : Device := mkDevice "Gamma" "Acme Compute" "CPU" 4.
Definition catalog_124 : list Device := [device_1; device_2; device_4].

(** Three devices with the same memory. *)
Definition tie_nvidia : Device := mkDevice "N" "NVIDIA Corporation" "GPU" 8.
Definition tie_other : Device := mkDevice "X" "Acme Compute" "GPU" 8.
Definition tie_intel : Device := mkDevice "I" "Intel(R) Corporation" "GPU" 8.
Definition catalog_tie : list Device := [tie_nvidia; tie_other; tie_intel].

Definition lookup_file (files : list (string * list Z)) (p : string)
  : option (list Z) :=
  option_map snd (find (fun e => String.eqb (fst e) p) files).

(** Arrays and an output buffer filled with left-over values made from
    [v]. *)
Definition leftover (v : Z) : Kernel.memory :=
  Kernel.mkMemory (repeat (Machine.uchar v) 64)
                  (repeat (Machine.uint (v * 16843009)) 80)
                  (repeat (Machine.uchar (v + 1)) 20)
                  eq_refl eq_refl eq_refl.

(** A machine with working directory [/work], the directory [/data]
    holding [files], the paths [existing] present, and the pyopencl calls
    failing for the files [faults]; the platform queries, the set-up and
    the scan succeed, and the memory a launch starts from is left over from
    something that depends on the device and on the file. *)
Definition world (platforms : list (list Device))
           (files : list (string * list Z)) (existing faults : list string)
  : World :=
  mkWorld platforms false (fun _ => false) (fun _ => false) "/work"
          (fun p => existsb (String.eqb p) existing)
          (fun p => String.eqb p "/data")
          (fun _ => true)
          (fun _ => true)
          (fun _ _ => Some (map fst files))
          (lookup_file files)
          (fun _ p => existsb (String.eqb p) faults)
          (fun d p => leftover (global_mem_size d + Z.of_nat (String.length p))).

Definition run_args : Args := mkArgs (Some "/data") false None None false.

(** Five files, the pyopencl calls failing for the third. *)
Definition five_files : list (string * list Z) :=
  [("/data/a", Hex.bytes_of_string "a");
   ("/data/b", Hex.bytes_of_string "b");
   ("/data/c", Hex.bytes_of_string "c");
   ("/data/d", Hex.bytes_of_string "d");
   ("/data/e", Hex.bytes_of_string "e")].

Definition world_one_fault : World :=
  world [catalog_124] five_files [] ["/data/c"].

(** The first platform exposes no device, the second one does. *)
Definition world_second_platform : World :=
  world [[]; [device_4]] five_files [] [].

(** Another machine: other devices, the content of [/data/a] under another
    name and at another place in the batch. *)
Definition other_files : list (string * list Z) :=
  [("/other/e", Hex.bytes_of_string "e");
   ("/other/a", Hex.bytes_of_string "a")].

Definition world_other : World := world [catalog_tie] other_files [] [].

(** The default output file and the first two alternates are present. *)
Definition world_output_taken : World :=
  world [catalog_124] five_files
        ["/work/output.csv"; "/work/output_000.txt"; "/work/output_001.txt"]
        [].

(** A directory with a zero-byte file between two others. *)
Definition files_with_empty : list (string * list Z) :=
  [("/data/a", Hex.bytes_of_string "a");
   ("/data/empty", []);
   ("/data/abc", Hex.bytes_of_string "abc")].

Definition world_empty_file : World := world [catalog_124] files_with_empty [] [].

End Examples.

(** ** Notions used to state further properties of the kernel and of the
    hexadecimal rendering *)

Module DigestProps.
Import Machine Kernel Hex.

(** One of the sixteen characters [format(byte, '02x')] can produce. *)
Definition is_hex_char (c : ascii) : bool :=
  existsb (Ascii.eqb c)
          ["0"; "1"; "2"; "3"; "4"; "5"; "6"; "7"; "8"; "9";
           "a"; "b"; "c"; "d"; "e"; "f"]%char.

(** The value of a hexadecimal character. *)
Definition hex_value (c : ascii) : Z :=
  let n := Z.of_nat (nat_of_ascii c) in
  if (48 <=? n) && (n <=? 57) then n - 48
  else if (97 <=? n) && (n <=? 102) then n - 87
  else 0.

(** Reading a hexadecimal string back, two characters a byte. *)
Fixpoint unhex (s : string) : list Z :=
  match s with
  | String hi (String lo rest) => 16 * hex_value hi + hex_value lo :: unhex rest
  | _ => []
  end.

(** The number of leading bytes of the input buffer that can reach the
    digest: all [length] of them when the length field fits behind them in
    the last chunk, and only those in front of bytes 56..63 of the last chunk
    when it does not. *)
Definition bytes_used (length : Z) : Z :=
  if length mod 64 <? 56 then length else 64 * (length / 64) + 56.

End DigestProps.

(** ** Notions used to state further properties of the host program *)

Module RunProps.
Import Host.

(** The same machine with other files behind it: another outcome of the
    directory scan, other file contents, other pyopencl failures on files,
    other left-over memory. *)
Definition with_files (w : World)
           (scan : string -> bool -> option (list string))
           (read : string -> option (list Z))
           (fault : Device -> string -> bool)
           (stale : Device -> string -> Kernel.memory) : World :=
  mkWorld (platforms w) (get_platforms_fault w) (get_devices_fault w)
          (setup_fault w) (getcwd w) (path_exists w) (isdir w)
          (access_R w) (access_W w) scan read fault stale.

(** [main] got as far as hashing. *)
Definition reached_hashing (o : outcome) : bool :=
  match o with
  | Written _ _ | HashingError _ => true
  | _ => false
  end.

(** [main] got as far as the call of [scan_directory] (line 258). *)
Definition reached_scan (o : outcome) : bool :=
  match o with
  | Written _ _ | HashingError _ | Uncaught (ScanError _) => true
  | _ => false
  end.

End RunProps.

(** ** [scan_directory] over a directory tree *)

Module Scan.
Import Host.

#[local] Set Warnings "-register-all".

(** What [os.scandir] and [os.walk] show of the entries of a directory.  A
    [File] is any entry that is not a directory: [regular] says whether
    [is_file()] holds for it (a regular file or a link to one, as opposed to
    a FIFO, a socket, a device or a dangling link), [readable] is
    [os.access(_, os.R_OK)] on its path.  A [Dir] is an entry for which
    [is_dir()] holds: [symlink] says whether it is a link to a directory
    ([os.walk] lists it and does not walk into it), [listable] whether
    listing it succeeds ([os.walk] passes over a directory it cannot list). *)
Inductive entry : Type :=
| File (name : string) (regular readable : bool)
| Dir (name : string) (symlink listable : bool) (children : list entry).

Definition entry_name (e : entry) : string :=
  match e with
  | File name _ _ => name
  | Dir name _ _ _ => name
  end.

(** Lines 142-145 for one [(root, _, files)] of [os.walk]: [files] are the
    entries of [root] that are not directories. *)
Definition walk_files (root : string) (entries : list entry) : list string :=
  flat_map
    (fun e =>
       match e with
       | File file _ readable =>
           let file_path := path_join root file in
           if readable then [file_path] else []
       | Dir _ _ _ _ => []
       end)
    entries.

(** What [os.walk] yields below the entry [e] of [root], top-down: the
    directory itself first, then its sub-directories in order. *)
Fixpoint walk_below (root : string) (e : entry) : list string :=
  match e with
  | File _ _ _ => []
  | Dir name symlink listable children =>
      if orb symlink (negb listable) then []
      else
        let new_path := path_join root name in
        (walk_files new_path children
         ++ flat_map (walk_below new_path) children)%list
  end.

(** Lines 147-149: the entries of [path] itself. *)
Definition scan_flat (path : string) (entries : list entry) : list string :=
  flat_map
    (fun e =>
       match e with
       | File name regular readable =>
           if andb regular readable then [path_join path name] else []
       | Dir _ _ _ _ => []
       end)
    entries.

(** [scan_directory(path, recursive)], [entries] being what the directory
    [path] holds. *)
Definition scan_directory (path : string) (entries : list entry)
           (recursive : bool) : list string :=
  if recursive then
    (walk_files path entries ++ flat_map (walk_below path) entries)%list
  else scan_flat path entries.

End Scan.

(** ** The rows of the report *)

Module Report.
Import Host.

(** [s.rfind(c)] on the characters of a string: the index of the last
    occurrence, -1 when there is none. *)
Fixpoint rfind_from (c : ascii) (s : list ascii) (i last : Z) : Z :=
  match s with
  | [] => last
  | x :: rest => rfind_from c rest (i + 1) (if Ascii.eqb x c then i else last)
  end.

Definition rfind (c : ascii) (s : list ascii) : Z := rfind_from c s 0 (-1).

(** [os.path.basename(p)] (POSIX): [p[p.rfind('/') + 1:]]. *)
Definition basename (p : string) : string :=
  let chars := list_ascii_of_string p in
  let i := rfind "/" chars + 1 in
  string_of_list_ascii (skipn (Z.to_nat i) chars).

(** [os.path.splitext(p)] (POSIX): the split at the last dot of the last
    component, unless only dots stand in front of it in that component. *)
Definition splitext (p : string) : string * string :=
  let chars := list_ascii_of_string p in
  let sepIndex := rfind "/" chars in
  let dotIndex := rfind "." chars in
  if (dotIndex >? sepIndex)%Z then
    let leading :=
      firstn (Z.to_nat (dotIndex - (sepIndex + 1)))
             (skipn (Z.to_nat (sepIndex + 1)) chars) in
    if existsb (fun ch => negb (Ascii.eqb ch ".")) leading then
      (string_of_list_ascii (firstn (Z.to_nat dotIndex) chars),
       string_of_list_ascii (skipn (Z.to_nat dotIndex) chars))
    else (p, EmptyString)
  else (p, EmptyString).

(** Lines 269-272: the row written for one entry of [hashes]. *)
Definition report_row (entry : string * string) : list string :=
  let '(file, hash) := entry in
  let file_name := basename file in
  let file_extension := snd (splitext file_name) in
  [file; file_name; file_extension; hash].

(** Lines 268-272: the header row and the data rows handed to the CSV
    writer. *)
Definition report_rows (hashes : list (string * string)) : list (list string) :=
  ["FILE_PATH"; "FILE_NAME"; "FILE_EXTENSION"; "HASH"]%string
  :: map report_row hashes.

End Report.

(** ** Facts about arrays and loops *)

Module MachineFacts.
Import Machine.

Lemma store_nat_length a i v : List.length (store_nat a i v) = List.length a.
Proof.
  revert i; induction a as [|x a IH]; intros [|i]; simpl; auto.
Qed.

Lemma store_length a i v : List.length (store a i v) = List.length a.
Proof. apply store_nat_length. Qed.

Lemma store_nat_app pre x post v :
  store_nat (pre ++ x :: post) (List.length pre) v = pre ++ v :: post.
Proof.
  induction pre as [|y pre IH]; simpl; [reflexivity | now rewrite IH].
Qed.

Lemma store_nat_app_r pre l j v :
  store_nat (pre ++ l) (List.length pre + j) v = pre ++ store_nat l j v.
Proof.
  induction pre as [|y pre IH]; simpl.
  - reflexivity.
  - now rewrite IH.
Qed.

Lemma range_seq lo hi :
  0 <= lo ->
  range lo hi = map Z.of_nat (seq (Z.to_nat lo) (Z.to_nat (hi - lo))).
Proof.
  intros Hlo. unfold range.
  replace (seq (Z.to_nat lo) (Z.to_nat (hi - lo)))
    with (map (fun n => (Z.to_nat lo + n)%nat) (seq 0 (Z.to_nat (hi - lo)))).
  - rewrite map_map. apply map_ext. intros n. lia.
  - generalize (Z.to_nat (hi - lo)) as m. generalize (Z.to_nat lo) as s.
    intros s m. revert s. induction m as [|m IH]; intros s; simpl.
    + reflexivity.
    + f_equal; [lia|]. rewrite <- seq_shift, map_map.
      rewrite <- (IH (S s)). apply map_ext. intros; lia.
Qed.

Lemma range_length lo hi : List.length (range lo hi) = Z.to_nat (hi - lo).
Proof. unfold range. now rewrite length_map, length_seq. Qed.

Lemma fold_left_ext {A B} (f g : A -> B -> A) l a :
  (forall x y, f x y = g x y) -> fold_left f l a = fold_left g l a.
Proof.
  intros E. revert a. induction l as [|y l IH]; intros a; simpl.
  - reflexivity.
  - now rewrite E, IH.
Qed.

(** A loop that assigns [a[i] = g i] for [i = s .. s+m-1] rewrites exactly
    that segment of the array. *)
Lemma fold_store_segment (g : Z -> Z) m :
  forall s pre mid post,
    List.length pre = s -> List.length mid = m ->
    fold_left (fun a i => store a i (g i)) (map Z.of_nat (seq s m))
              (pre ++ mid ++ post)
    = pre ++ map g (map Z.of_nat (seq s m)) ++ post.
Proof.
  induction m as [|m IH]; intros s pre mid post Hpre Hmid.
  - destruct mid; [reflexivity | discriminate].
  - destruct mid as [|x mid]; [discriminate|]. simpl.
    unfold store at 2. rewrite Nat2Z.id, <- Hpre.
    change ((x :: mid) ++ post) with (x :: mid ++ post).
    rewrite store_nat_app.
    change (pre ++ g (Z.of_nat (List.length pre)) :: mid ++ post)
      with (pre ++ [g (Z.of_nat (List.length pre))] ++ mid ++ post).
    rewrite app_assoc, Hpre.
    rewrite (IH (S s) (pre ++ [g (Z.of_nat s)]) mid post).
    + now rewrite <- app_assoc.
    + rewrite length_app; simpl; lia.
    + simpl in Hmid; lia.
Qed.

(** A loop that assigns every cell of an [n]-cell array. *)
Lemma fold_store_all (g : Z -> Z) n a :
  0 <= n -> List.length a = Z.to_nat n ->
  fold_left (fun a i => store a i (g i)) (range 0 n) a = map g (range 0 n).
Proof.
  intros Hn Ha. rewrite range_seq by lia. rewrite Z.sub_0_r. simpl Z.to_nat.
  pose proof (fold_store_segment g (Z.to_nat n) 0%nat [] a [] eq_refl Ha) as E.
  rewrite !app_nil_r in E. exact E.
Qed.

Lemma nth_range lo hi i d :
  (i < Z.to_nat (hi - lo))%nat -> nth i (range lo hi) d = lo + Z.of_nat i.
Proof.
  intros Hi. unfold range.
  rewrite (nth_indep _ d ((fun n => lo + Z.of_nat n) 0%nat))
    by now rewrite length_map, length_seq.
  rewrite (map_nth (fun n => lo + Z.of_nat n)), seq_nth by assumption.
  reflexivity.
Qed.

Lemma uint_int x : uint (int x) = uint x.
Proof.
  unfold uint, int.
  rewrite Zminus_mod, Zmod_mod, <- Zminus_mod.
  replace (x + 2 ^ 31 - 2 ^ 31) with x by lia. reflexivity.
Qed.

Lemma int_small x : - 2 ^ 31 <= x < 2 ^ 31 -> int x = x.
Proof.
  intros H. unfold int. rewrite Z.mod_small; lia.
Qed.

End MachineFacts.

(** ** The chunks the kernel builds *)

Module KernelFacts.
Import Machine Kernel FIPS180 Props MachineFacts.

Lemma store_app_r pre l j v :
  0 <= j ->
  store (pre ++ l) (Z.of_nat (List.length pre) + j) v = pre ++ store l j v.
Proof.
  intros Hj. unfold store.
  rewrite Z2Nat.inj_add, Nat2Z.id by lia. apply store_nat_app_r.
Qed.

Lemma store_suffix pre l i v :
  Z.of_nat (List.length pre) <= i ->
  store (pre ++ l) i v = pre ++ store l (i - Z.of_nat (List.length pre)) v.
Proof.
  intros Hi.
  replace i with (Z.of_nat (List.length pre) + (i - Z.of_nat (List.length pre)))
    at 1 by lia.
  apply store_app_r. lia.
Qed.

Lemma fill_chunk_map input length chunk_idx :
  fill_chunk input length chunk_idx
  = map (fun i => chunk_byte input length (int (chunk_idx * 64 + i)))
        (range 0 64).
Proof.
  unfold fill_chunk.
  rewrite (fold_left_ext _
    (fun chunk i =>
       store chunk i (chunk_byte input length (int (chunk_idx * 64 + i))))).
  - apply fold_store_all; [lia | reflexivity].
  - intros chunk i. unfold chunk_byte.
    destruct (_ <? _); [reflexivity|]. destruct (_ =? _); reflexivity.
Qed.

Lemma fill_chunk_length input length chunk_idx :
  List.length (fill_chunk input length chunk_idx) = 64%nat.
Proof. rewrite fill_chunk_map, length_map, range_length. reflexivity. Qed.

Lemma low_byte x : uchar (Z.land x 0xFF) = x mod 256.
Proof.
  unfold uchar. change 0xFF with (Z.ones 8).
  rewrite Z.land_ones by lia. change (2 ^ 8) with 256.
  apply Z.mod_mod. lia.
Qed.

(** The eight bytes written by the length loop are the big-endian bytes of
    [bit_len]. *)
Lemma pad_length_last chunk length :
  List.length chunk = 64%nat ->
  pad_length chunk length (Z.quot length 64)
  = firstn 56 chunk ++ be_bytes 8 (uint (length * 8)).
Proof.
  intros Hlen. unfold pad_length. rewrite Z.eqb_refl, uint_int.
  generalize (uint (length * 8)) as bit_len. intros bit_len.
  rewrite <- (firstn_skipn 56 chunk) at 1.
  assert (Hpre : List.length (firstn 56 chunk) = 56%nat)
    by (rewrite length_firstn; lia).
  assert (Hsuf : List.length (skipn 56 chunk) = 8%nat)
    by (rewrite length_skipn; lia).
  generalize dependent (firstn 56 chunk). intros pre Hpre.
  generalize dependent (skipn 56 chunk). intros suf Hsuf.
  do 9 (destruct suf as [|? suf]; try discriminate).
  change (range 0 8) with [0; 1; 2; 3; 4; 5; 6; 7].
  cbn [fold_left].
  rewrite !store_suffix by (rewrite ?store_length, ?length_app, ?Hpre; simpl; lia).
  rewrite !Hpre. cbn [fst]. f_equal.
  match goal with
  | |- store (store (store (store (store (store (store (store
         _ _ ?v0) _ ?v1) _ ?v2) _ ?v3) _ ?v4) _ ?v5) _ ?v6) _ ?v7 = _ =>
      change ([v7; v6; v5; v4; v3; v2; v1; v0] = be_bytes 8 bit_len)
  end.
  rewrite !low_byte, !Z.shiftr_div_pow2 by lia.
  rewrite !Z.div_div by lia.
  cbn [be_bytes].
  change (2 ^ (8 * Z.of_nat 0)) with 1. rewrite Z.div_1_r.
  repeat (f_equal; try reflexivity).
Qed.

Lemma build_chunk_last input length :
  build_chunk input length (Z.quot length 64)
  = firstn 56 (fill_chunk input length (Z.quot length 64))
    ++ be_bytes 8 (uint (length * 8)).
Proof.
  unfold build_chunk. apply pad_length_last, fill_chunk_length.
Qed.

Lemma build_chunk_inner input length chunk_idx :
  chunk_idx <> Z.quot length 64 ->
  build_chunk input length chunk_idx = fill_chunk input length chunk_idx.
Proof.
  intros H. unfold build_chunk, pad_length.
  destruct (Z.eqb_spec chunk_idx (Z.quot length 64)); [contradiction|].
  reflexivity.
Qed.

Lemma build_chunk_length input length chunk_idx :
  List.length (build_chunk input length chunk_idx) = 64%nat.
Proof.
  destruct (Z.eq_dec chunk_idx (Z.quot length 64)) as [->|Hne].
  - rewrite build_chunk_last, length_app, length_firstn, fill_chunk_length.
    reflexivity.
  - rewrite build_chunk_inner by assumption. apply fill_chunk_length.
Qed.

Lemma range_snoc n : 0 <= n -> range 0 (n + 1) = range 0 n ++ [n].
Proof.
  intros Hn. unfold range. rewrite !Z.sub_0_r.
  replace (Z.to_nat (n + 1)) with (Z.to_nat n + 1)%nat by lia.
  rewrite seq_app, map_app. simpl. f_equal. f_equal. lia.
Qed.

Lemma chunk_loop_fold input length :
  chunk_loop input length
  = fold_left process_chunk (processed_chunks input length) init_state.
Proof.
  unfold chunk_loop, processed_chunks.
  generalize init_state as h. generalize (chunk_indices length) as l.
  induction l as [|c l IH]; intros h; simpl; [reflexivity | apply IH].
Qed.

Lemma processed_chunks_last input length :
  0 <= length ->
  processed_chunks input length
  = map (build_chunk input length) (range 0 (length / 64))
    ++ [build_chunk input length (length / 64)].
Proof.
  intros Hl. unfold processed_chunks, chunk_indices.
  rewrite Z.quot_div_nonneg by lia.
  rewrite range_snoc by (apply Z.div_pos; lia).
  now rewrite map_app.
Qed.

(** The bytes of the last chunk in front of the length field. *)
Lemma last_chunk_byte input length i :
  0 <= length < 2 ^ 31 -> 0 <= i < 56 ->
  load (build_chunk input length (length / 64)) i
  = chunk_byte input length (length / 64 * 64 + i).
Proof.
  intros Hl Hi.
  rewrite <- (Z.quot_div_nonneg length 64) by lia.
  rewrite build_chunk_last. unfold load.
  rewrite app_nth1 by (rewrite length_firstn, fill_chunk_length; lia).
  rewrite nth_firstn.
  destruct (Nat.ltb_spec (Z.to_nat i) 56); [|lia].
  rewrite fill_chunk_map.
  rewrite (nth_indep _ 0 ((fun i => chunk_byte input length
                                      (int (Z.quot length 64 * 64 + i))) 0))
    by (rewrite length_map, range_length; simpl; lia).
  rewrite (map_nth (fun i => chunk_byte input length
                               (int (Z.quot length 64 * 64 + i)))).
  rewrite nth_range by (simpl; lia).
  rewrite Z.quot_div_nonneg by lia.
  rewrite Z2Nat.id, Z.add_0_l by lia.
  rewrite int_small; [reflexivity|].
  pose proof (Z.div_mod length 64 ltac:(lia)) as E.
  pose proof (Z.mod_pos_bound length 64 ltac:(lia)) as B.
  pose proof (Z.div_pos length 64 ltac:(lia) ltac:(lia)) as P.
  assert (length / 64 < 2 ^ 25)
    by (apply Z.div_lt_upper_bound; lia).
  lia.
Qed.

(** The length field of the last chunk. *)
Lemma last_chunk_length_field input length :
  skipn 56 (build_chunk input length (Z.quot length 64))
  = be_bytes 8 ((8 * length) mod 2 ^ 32).
Proof.
  rewrite build_chunk_last.
  rewrite skipn_app, length_firstn, fill_chunk_length.
  rewrite skipn_all2 by (rewrite length_firstn, fill_chunk_length; lia).
  unfold uint. now rewrite (Z.mul_comm length 8).
Qed.

Lemma last_chunk_length_field_small input length :
  0 <= length < 2 ^ 29 ->
  skipn 56 (build_chunk input length (Z.quot length 64))
  = be_bytes 8 (8 * length).
Proof.
  intros H. rewrite last_chunk_length_field, Z.mod_small by lia. reflexivity.
Qed.

(** When the length is a multiple of 64 the last chunk holds no message
    byte. *)
Lemma last_chunk_aligned input length :
  0 <= length < 2 ^ 31 -> length mod 64 = 0 ->
  build_chunk input length (length / 64)
  = [0x80] ++ repeat 0 55 ++ be_bytes 8 ((8 * length) mod 2 ^ 32).
Proof.
  intros Hl Hm.
  rewrite <- (Z.quot_div_nonneg length 64) by lia.
  rewrite build_chunk_last. unfold uint. rewrite (Z.mul_comm length 8).
  rewrite app_assoc. f_equal.
  rewrite fill_chunk_map.
  rewrite (map_ext_in _ (fun i => if i =? 0 then 0x80 else 0)).
  - reflexivity.
  - intros i Hin. apply in_map_iff in Hin. destruct Hin as (n & <- & Hn).
    apply in_seq in Hn. simpl in Hn.
    rewrite Z.quot_div_nonneg by lia.
    pose proof (Z.div_mod length 64 ltac:(lia)) as E.
    rewrite int_small by lia.
    unfold chunk_byte.
    destruct (Z.ltb_spec (length / 64 * 64 + (0 + Z.of_nat n)) length); [lia|].
    destruct (Z.eqb_spec (length / 64 * 64 + (0 + Z.of_nat n)) length);
      destruct (Z.eqb_spec (0 + Z.of_nat n) 0); try reflexivity; lia.
Qed.

End KernelFacts.

Import Machine Kernel Hex.
(** ** The kernel's compression is the reference's *)

Module CompressionFacts.
Import Machine Kernel FIPS180 Props MachineFacts KernelFacts.

Lemma testbit_lnot_uint b n :
  0 <= n -> Z.testbit (uint (Z.lnot b)) n = andb (n <? 32) (negb (Z.testbit b n)).
Proof.
  intros Hn. unfold uint. rewrite Z.testbit_mod_pow2 by lia.
  rewrite Z.lnot_spec by lia. reflexivity.
Qed.

Lemma choose_lor_lxor b c d :
  Z.lor (Z.land b c) (Z.land (uint (Z.lnot b)) d) = Ch b c d.
Proof.
  unfold Ch. fold (uint (Z.lnot b)). apply Z.bits_inj'. intros n Hn.
  rewrite Z.lor_spec, Z.lxor_spec, !Z.land_spec, testbit_lnot_uint by lia.
  destruct (Z.testbit b n), (Z.testbit c n), (Z.testbit d n), (n <? 32);
    reflexivity.
Qed.

Lemma majority_lor_lxor b c d :
  Z.lor (Z.lor (Z.land b c) (Z.land b d)) (Z.land c d) = Maj b c d.
Proof.
  unfold Maj. apply Z.bits_inj'. intros n Hn.
  rewrite !Z.lor_spec, !Z.lxor_spec, !Z.land_spec.
  destruct (Z.testbit b n), (Z.testbit c n), (Z.testbit d n); reflexivity.
Qed.

Lemma add32_add32 x y z : add32 (add32 x y) z = add32 (x + y) z.
Proof. unfold add32. apply Zplus_mod_idemp_l. Qed.

(** One round of the kernel is one step of the reference, for the round
    number [t < 80]. *)
Lemma round_step w t a b c d e :
  (t < 80)%nat ->
  round w (a, b, c, d, e) (Z.of_nat t)
  = (add32 (add32 (add32 (add32 (ROTL 5 a) (f t b c d)) e) (K t))
           (load w (Z.of_nat t)),
     a, ROTL 30 b, c, d).
Proof.
  intros Ht. unfold round, f, K.
  destruct (Nat.ltb_spec t 20); destruct (Z.ltb_spec (Z.of_nat t) 20); try lia;
    [| destruct (Nat.ltb_spec t 40); destruct (Z.ltb_spec (Z.of_nat t) 40);
       try lia;
       [| destruct (Nat.ltb_spec t 60); destruct (Z.ltb_spec (Z.of_nat t) 60);
          try lia ] ];
    rewrite ?choose_lor_lxor, ?majority_lor_lxor;
    rewrite (add32_add32 (ROTL 5 a)), (add32_add32 (ROTL 5 a + _)),
      (add32_add32 (ROTL 5 a + _ + _));
    reflexivity.
Qed.


Lemma load_middle pre x post :
  load (pre ++ x :: post) (Z.of_nat (List.length pre)) = x.
Proof. unfold load. rewrite Nat2Z.id. apply nth_middle. Qed.

Lemma load_prefix pre post i :
  0 <= i < Z.of_nat (List.length pre) ->
  load (pre ++ post) i = nth (Z.to_nat i) pre 0.
Proof. intros Hi. unfold load. apply app_nth1. lia. Qed.

(** The eighty rounds, as the reference runs them over the schedule. *)
Lemma rounds_fold ws :
  forall pre a b c d e,
    (List.length pre + List.length ws <= 80)%nat ->
    state_list (fold_left (round (pre ++ ws))
                          (map Z.of_nat (seq (List.length pre) (List.length ws)))
                          (a, b, c, d, e))
    = rounds (List.length pre) ws a b c d e.
Proof.
  induction ws as [|x ws IH]; intros pre a b c d e Hlen.
  - reflexivity.
  - cbn [List.length seq map fold_left rounds].
    rewrite round_step by (cbn [List.length] in Hlen; lia).
    rewrite load_middle.
    replace (pre ++ x :: ws) with ((pre ++ [x]) ++ ws)
      by (now rewrite <- app_assoc).
    replace (S (List.length pre)) with (List.length (pre ++ [x]))
      by (rewrite length_app; cbn [List.length]; lia).
    apply IH. rewrite length_app. cbn [List.length] in *. lia.
Qed.

Lemma lor_disjoint a n y :
  0 <= n -> 0 <= y < 2 ^ n -> Z.lor (a * 2 ^ n) y = a * 2 ^ n + y.
Proof.
  intros Hn Hy. rewrite <- Z.add_lor_land.
  assert (E : Z.land (a * 2 ^ n) y = 0).
  { apply Z.bits_inj'. intros m Hm. rewrite Z.land_spec, Z.bits_0.
    destruct (Z.lt_ge_cases m n).
    - now rewrite Z.mul_pow2_bits_low.
    - rewrite <- (Z.mod_small y (2 ^ n)) by lia.
      rewrite Z.mod_pow2_bits_high by lia. apply andb_false_r. }
  rewrite E. lia.
Qed.

Lemma kernel_word_bytes b0 b1 b2 b3 rest :
  0 <= b0 < 256 -> 0 <= b1 < 256 -> 0 <= b2 < 256 -> 0 <= b3 < 256 ->
  kernel_word (b0 :: b1 :: b2 :: b3 :: rest) 0 = be_word [b0; b1; b2; b3].
Proof.
  intros H0 H1 H2 H3. unfold kernel_word.
  change (load (b0 :: b1 :: b2 :: b3 :: rest) (4 * 0)) with b0.
  change (load (b0 :: b1 :: b2 :: b3 :: rest) (4 * 0 + 1)) with b1.
  change (load (b0 :: b1 :: b2 :: b3 :: rest) (4 * 0 + 2)) with b2.
  change (load (b0 :: b1 :: b2 :: b3 :: rest) (4 * 0 + 3)) with b3.
  rewrite !Z.shiftl_mul_pow2 by lia.
  rewrite (lor_disjoint b0 24) by lia.
  replace (b0 * 2 ^ 24 + b1 * 2 ^ 16) with ((b0 * 2 ^ 8 + b1) * 2 ^ 16) by lia.
  rewrite (lor_disjoint _ 16) by lia.
  replace ((b0 * 2 ^ 8 + b1) * 2 ^ 16 + b2 * 2 ^ 8)
    with ((b0 * 2 ^ 16 + b1 * 2 ^ 8 + b2) * 2 ^ 8) by lia.
  rewrite (lor_disjoint _ 8) by lia.
  unfold uint. rewrite Z.mod_small by lia.
  cbn [be_word List.length]. lia.
Qed.

Lemma kernel_word_shift b0 b1 b2 b3 rest i :
  0 <= i ->
  kernel_word (b0 :: b1 :: b2 :: b3 :: rest) (i + 1) = kernel_word rest i.
Proof.
  intros Hi. unfold kernel_word, load.
  replace (Z.to_nat (4 * (i + 1))) with (4 + Z.to_nat (4 * i))%nat by lia.
  replace (Z.to_nat (4 * (i + 1) + 1)) with (4 + Z.to_nat (4 * i + 1))%nat by lia.
  replace (Z.to_nat (4 * (i + 1) + 2)) with (4 + Z.to_nat (4 * i + 2))%nat by lia.
  replace (Z.to_nat (4 * (i + 1) + 3)) with (4 + Z.to_nat (4 * i + 3))%nat by lia.
  reflexivity.
Qed.

Lemma words_kernel n :
  forall chunk,
    List.length chunk = (4 * n)%nat -> all_bytes chunk ->
    map (kernel_word chunk) (map Z.of_nat (seq 0 n)) = words n chunk.
Proof.
  induction n as [|n IH]; intros chunk Hlen Hb; [reflexivity|].
  destruct chunk as [|b0 [|b1 [|b2 [|b3 rest]]]]; try (cbn in Hlen; lia).
  unfold all_bytes in Hb.
  apply Forall_cons_iff in Hb. destruct Hb as [B0 Hb].
  apply Forall_cons_iff in Hb. destruct Hb as [B1 Hb].
  apply Forall_cons_iff in Hb. destruct Hb as [B2 Hb].
  apply Forall_cons_iff in Hb. destruct Hb as [B3 Hb].
  cbn [seq map words firstn skipn]. f_equal.
  - now apply kernel_word_bytes.
  - rewrite <- seq_shift, !map_map. rewrite <- (IH rest).
    + rewrite map_map. apply map_ext. intros i.
      rewrite Nat2Z.inj_succ, <- Z.add_1_r.
      apply kernel_word_shift. lia.
    + cbn [List.length] in Hlen. lia.
    + exact Hb.
Qed.

Lemma words_length n : forall block, List.length (words n block) = n.
Proof.
  induction n as [|n IH]; intros block; cbn [words List.length];
    [reflexivity | now rewrite IH].
Qed.

Lemma extend_length n : forall Ws, List.length (extend n Ws) = (n + List.length Ws)%nat.
Proof.
  induction n as [|n IH]; intros Ws; cbn [extend]; [reflexivity|].
  rewrite IH, length_app. cbn [List.length]. lia.
Qed.

Lemma extend_step_next xs r rest :
  (16 <= List.length xs)%nat ->
  extend_step (xs ++ r :: rest) (Z.of_nat (List.length xs))
  = (xs ++ [ROTL 1 (Z.lxor (Z.lxor (Z.lxor (nth (List.length xs - 3) xs 0)
                                           (nth (List.length xs - 8) xs 0))
                                   (nth (List.length xs - 14) xs 0))
                           (nth (List.length xs - 16) xs 0))]) ++ rest.
Proof.
  intros Hxs. unfold extend_step.
  rewrite !load_prefix by lia.
  unfold store. rewrite Nat2Z.id, store_nat_app.
  replace (Z.to_nat (Z.of_nat (List.length xs) - 3))
    with (List.length xs - 3)%nat by lia.
  replace (Z.to_nat (Z.of_nat (List.length xs) - 8))
    with (List.length xs - 8)%nat by lia.
  replace (Z.to_nat (Z.of_nat (List.length xs) - 14))
    with (List.length xs - 14)%nat by lia.
  replace (Z.to_nat (Z.of_nat (List.length xs) - 16))
    with (List.length xs - 16)%nat by lia.
  rewrite <- app_assoc. reflexivity.
Qed.

(** The extension loop of the kernel, run on an array whose first cells
    hold [xs], appends to [xs] as the reference does. *)
Lemma extend_steps n :
  forall xs rest,
    List.length rest = n -> (16 <= List.length xs)%nat ->
    fold_left extend_step (map Z.of_nat (seq (List.length xs) n)) (xs ++ rest)
    = extend n xs.
Proof.
  induction n as [|n IH]; intros xs rest Hrest Hxs.
  - destruct rest; [|discriminate]. cbn. apply app_nil_r.
  - destruct rest as [|r rest]; [discriminate|].
    cbn [seq map fold_left extend].
    rewrite extend_step_next by assumption.
    match goal with
    | |- fold_left _ _ ((xs ++ [?v]) ++ rest) = _ =>
        replace (S (List.length xs)) with (List.length (xs ++ [v]))
          by (rewrite length_app; cbn [List.length]; lia)
    end.
    rewrite IH.
    + reflexivity.
    + cbn [List.length] in Hrest. lia.
    + rewrite length_app. lia.
Qed.

Lemma schedule_W chunk :
  List.length chunk = 64%nat -> all_bytes chunk -> schedule chunk = W chunk.
Proof.
  intros Hlen Hb. unfold schedule, W.
  assert (L : load_words chunk (repeat 0 80) = words 16 chunk ++ repeat 0 64).
  { unfold load_words. fold (kernel_word chunk).
    change (fun w i => store w i (kernel_word chunk i))
      with (fun w i => store w i (kernel_word chunk i)).
    rewrite range_seq by lia.
    pose proof (fold_store_segment (kernel_word chunk) 16 0 []
                  (repeat 0 16) (repeat 0 64) eq_refl eq_refl) as E.
    cbn [app] in E.
    change (repeat 0 80) with (repeat 0 16 ++ repeat 0 64).
    change (Z.to_nat 0) with 0%nat. change (Z.to_nat (16 - 0)) with 16%nat.
    unfold kernel_word in E at 1. rewrite E. fold (kernel_word chunk).
    now rewrite words_kernel. }
  rewrite L. unfold extend_words. fold extend_step. rewrite range_seq by lia.
  change (Z.to_nat 16) with 16%nat. change (Z.to_nat (80 - 16)) with 64%nat.
  rewrite <- (words_length 16 chunk) at 1.
  apply extend_steps; [reflexivity | rewrite words_length; lia].
Qed.

Lemma rounds_five Ws : forall t a b c d e,
  exists a' b' c' d' e', rounds t Ws a b c d e = [a'; b'; c'; d'; e'].
Proof.
  induction Ws as [|x Ws IH]; intros t a b c d e; cbn [rounds].
  - now exists a, b, c, d, e.
  - apply IH.
Qed.

Lemma rounds_fold_80 ws a b c d e :
  List.length ws = 80%nat ->
  state_list (fold_left (round ws) (map Z.of_nat (seq 0 80)) (a, b, c, d, e))
  = rounds 0 ws a b c d e.
Proof.
  intros H. pose proof (rounds_fold ws [] a b c d e) as R.
  cbn [app List.length] in R. rewrite H in R. apply R. lia.
Qed.

(** The work of the kernel on one chunk is the reference's compression. *)
Lemma process_chunk_compress h chunk :
  List.length chunk = 64%nat -> all_bytes chunk ->
  state_list (process_chunk h chunk) = compress (state_list h) chunk.
Proof.
  intros Hlen Hb. destruct h as [[[[h0 h1] h2] h3] h4].
  unfold process_chunk. rewrite schedule_W by assumption.
  rewrite range_seq by lia.
  change (Z.to_nat 0) with 0%nat. change (Z.to_nat (80 - 0)) with 80%nat.
  assert (LW : List.length (W chunk) = 80%nat)
    by (unfold W; rewrite extend_length, words_length; reflexivity).
  pose proof (rounds_fold_80 (W chunk) h0 h1 h2 h3 h4 LW) as R.
  revert R.
  generalize (fold_left (round (W chunk)) (map Z.of_nat (seq 0 80))
                        (h0, h1, h2, h3, h4)).
  intros [[[[a b] c] d] e] R.
  change (state_list (a, b, c, d, e)) with [a; b; c; d; e] in R.
  unfold compress. cbn [state_list]. rewrite <- R. reflexivity.
Qed.

End CompressionFacts.

(** ** The kernel's chunks are the blocks of the padded message *)

Module PaddingFacts.
Import Machine Kernel FIPS180 Props MachineFacts KernelFacts CompressionFacts.

Lemma load_map_range (g : Z -> Z) n i :
  0 <= i < n -> load (map g (range 0 n)) i = g i.
Proof.
  intros Hi. unfold load.
  rewrite (nth_indep _ 0 (g 0)) by (rewrite length_map, range_length; lia).
  rewrite (map_nth g), nth_range by lia. f_equal. lia.
Qed.

Lemma be_bytes_length n x : List.length (be_bytes n x) = n.
Proof. induction n as [|n IH]; cbn [be_bytes List.length]; [reflexivity | now rewrite IH]. Qed.

Lemma be_bytes_all_bytes n x : all_bytes (be_bytes n x).
Proof.
  induction n as [|n IH]; cbn [be_bytes]; constructor.
  - apply Z.mod_pos_bound. lia.
  - exact IH.
Qed.

Lemma all_bytes_firstn n l : all_bytes l -> all_bytes (firstn n l).
Proof.
  intros H. rewrite <- (firstn_skipn n l) in H.
  now apply Forall_app in H.
Qed.

Lemma all_bytes_skipn n l : all_bytes l -> all_bytes (skipn n l).
Proof.
  intros H. rewrite <- (firstn_skipn n l) in H.
  now apply Forall_app in H.
Qed.

Lemma parse_map n :
  forall bytes,
    parse n bytes
    = map (fun j => firstn 64 (skipn (64 * j) bytes)) (seq 0 n).
Proof.
  induction n as [|n IH]; intros bytes; [reflexivity|].
  cbn [parse seq map]. f_equal.
  rewrite <- seq_shift, map_map, IH. apply map_ext. intros j.
  rewrite skipn_skipn. f_equal. f_equal. lia.
Qed.

Lemma pad_all_bytes M : all_bytes M -> all_bytes (pad M).
Proof.
  intros HM. unfold pad, all_bytes. rewrite !Forall_app.
  split; [exact HM|]. split; [repeat constructor; lia|].
  split; [|apply be_bytes_all_bytes].
  apply Forall_forall. intros x Hx. apply repeat_spec in Hx. lia.
Qed.

Section FieldFits.

(** A message of [64 q + r] bytes with [r < 56], shorter than 2^29 bytes:
    the length field fits behind the 0x80 marker in the last chunk, and
    the bit length fits in 32 bits. *)
Variable M : list Z.
Variables q r : Z.
Hypothesis Hlen : Z.of_nat (List.length M) = 64 * q + r.
Hypothesis Hq : 0 <= q.
Hypothesis Hr : 0 <= r < 56.
Hypothesis Hsmall : 64 * q + r < 2 ^ 29.

Let L : Z := 64 * q + r.

Lemma L_div : L / 64 = q.
Proof. unfold L. symmetry. apply (Z.div_unique _ _ q r); lia. Qed.

Lemma L_quot : Z.quot L 64 = q.
Proof. rewrite Z.quot_div_nonneg by (unfold L; lia). apply L_div. Qed.

Lemma zero_count : (55 - L) mod 64 = 55 - r.
Proof.
  unfold L. symmetry. apply (Z.mod_unique _ _ (- q) (55 - r)); lia.
Qed.

Lemma pad_shape :
  pad M = M ++ [0x80] ++ repeat 0 (Z.to_nat (55 - r)) ++ be_bytes 8 (8 * L).
Proof. unfold pad. rewrite Hlen. fold L. now rewrite zero_count. Qed.

Lemma pad_total_length : List.length (pad M) = (64 * Z.to_nat (q + 1))%nat.
Proof.
  rewrite pad_shape, !length_app, repeat_length, be_bytes_length.
  cbn [List.length]. lia.
Qed.

(** The bytes of the padded message, by position. *)
Lemma pad_nth pos :
  0 <= pos < 64 * (q + 1) ->
  nth (Z.to_nat pos) (pad M) 0
  = if pos <? 64 * q + 56 then chunk_byte M L pos
    else nth (Z.to_nat (pos - (64 * q + 56))) (be_bytes 8 (8 * L)) 0.
Proof.
  intros Hpos. rewrite pad_shape. unfold chunk_byte, load.
  destruct (Z.ltb_spec pos L) as [Hlt|Hge].
  - destruct (Z.ltb_spec pos (64 * q + 56)); [|unfold L in *; lia].
    apply app_nth1. unfold L in *. lia.
  - rewrite app_nth2 by (unfold L in *; lia).
    destruct (Z.eqb_spec pos L) as [->|Hne].
    + destruct (Z.ltb_spec L (64 * q + 56)); [|unfold L in *; lia].
      replace (Z.to_nat L - List.length M)%nat with 0%nat
        by (unfold L in *; lia).
      reflexivity.
    + replace (Z.to_nat pos - List.length M)%nat
        with (S (Z.to_nat (pos - L - 1))) by (unfold L in *; lia).
      cbn [app nth].
      destruct (Z.ltb_spec pos (64 * q + 56)).
      * rewrite app_nth1 by (rewrite repeat_length; unfold L in *; lia).
        apply nth_repeat.
      * rewrite app_nth2 by (rewrite repeat_length; unfold L in *; lia).
        rewrite repeat_length. f_equal. unfold L in *. lia.
Qed.

(** The bytes of the kernel's chunks, by position. *)
Lemma build_chunk_nth j i :
  0 <= j <= q -> 0 <= i < 64 ->
  load (build_chunk M L j) i
  = if 64 * j + i <? 64 * q + 56 then chunk_byte M L (64 * j + i)
    else nth (Z.to_nat (64 * j + i - (64 * q + 56))) (be_bytes 8 (8 * L)) 0.
Proof.
  intros Hj Hi.
  destruct (Z.eq_dec j q) as [->|Hne].
  - destruct (Z.ltb_spec (64 * q + i) (64 * q + 56)).
    + rewrite <- L_div at 1. rewrite last_chunk_byte by (unfold L; lia).
      rewrite L_div. f_equal. lia.
    + rewrite <- L_quot at 1. rewrite build_chunk_last. unfold load.
      rewrite app_nth2
        by (rewrite length_firstn, fill_chunk_length; lia).
      rewrite length_firstn, fill_chunk_length.
      unfold uint. rewrite Z.mod_small by (unfold L; lia).
      rewrite (Z.mul_comm L 8). f_equal. lia.
  - rewrite build_chunk_inner by (rewrite L_quot; exact Hne).
    rewrite fill_chunk_map, load_map_range by lia.
    rewrite int_small by lia.
    destruct (Z.ltb_spec (64 * j + i) (64 * q + 56)); [|lia].
    f_equal. lia.
Qed.

Lemma build_chunk_block j :
  0 <= j <= q ->
  build_chunk M L j = firstn 64 (skipn (64 * Z.to_nat j) (pad M)).
Proof.
  intros Hj.
  assert (Hlen64 : List.length (firstn 64 (skipn (64 * Z.to_nat j) (pad M)))
                   = 64%nat).
  { rewrite length_firstn, length_skipn, pad_total_length. lia. }
  apply (nth_ext _ _ 0 0).
  - now rewrite build_chunk_length, Hlen64.
  - intros n Hn. rewrite build_chunk_length in Hn.
    rewrite nth_firstn. destruct (Nat.ltb_spec n 64); [|lia].
    rewrite nth_skipn.
    pose proof (build_chunk_nth j (Z.of_nat n) Hj ltac:(lia)) as B.
    unfold load in B. rewrite Nat2Z.id in B. rewrite B.
    pose proof (pad_nth (64 * j + Z.of_nat n) ltac:(lia)) as P.
    replace (Z.to_nat (64 * j + Z.of_nat n))
      with (64 * Z.to_nat j + n)%nat in P by lia.
    now rewrite P.
Qed.

Lemma processed_chunks_parse :
  processed_chunks M L = parse (List.length (pad M) / 64) (pad M).
Proof.
  rewrite pad_total_length, Nat.mul_comm, Nat.div_mul by lia.
  unfold processed_chunks, chunk_indices.
  rewrite L_quot, range_seq by lia.
  rewrite parse_map, map_map. change (Z.to_nat 0) with 0%nat.
  rewrite Z.sub_0_r. apply map_ext_in. intros j Hj. apply in_seq in Hj.
  rewrite build_chunk_block by lia. now rewrite Nat2Z.id.
Qed.

End FieldFits.

Lemma parse_blocks n :
  forall bytes,
    all_bytes bytes -> (64 * n <= List.length bytes)%nat ->
    Forall (fun block => List.length block = 64%nat /\ all_bytes block)
           (parse n bytes).
Proof.
  induction n as [|n IH]; intros bytes Hb Hl; cbn [parse]; constructor.
  - split; [rewrite length_firstn; lia | now apply all_bytes_firstn].
  - apply IH; [now apply all_bytes_skipn | rewrite length_skipn; lia].
Qed.

Lemma fold_process_compress chunks :
  Forall (fun block => List.length block = 64%nat /\ all_bytes block) chunks ->
  forall h,
    state_list (fold_left process_chunk chunks h)
    = fold_left compress chunks (state_list h).
Proof.
  induction 1 as [|chunk chunks [Hl Hb] _ IH]; intros h; cbn [fold_left].
  - reflexivity.
  - rewrite IH. now rewrite process_chunk_compress.
Qed.

Lemma write_output_bytes h :
  write_output h (repeat 0 20) = flat_map (be_bytes 4) (state_list h).
Proof.
  destruct h as [[[[h0 h1] h2] h3] h4].
  unfold write_output. change (range 0 5) with [0; 1; 2; 3; 4].
  cbn [fold_left state_list flat_map be_bytes app].
  unfold uchar. rewrite !Z.shiftr_div_pow2 by lia.
  change (load [h0; h1; h2; h3; h4] 0) with h0.
  change (load [h0; h1; h2; h3; h4] 1) with h1.
  change (load [h0; h1; h2; h3; h4] 2) with h2.
  change (load [h0; h1; h2; h3; h4] 3) with h3.
  change (load [h0; h1; h2; h3; h4] 4) with h4.
  change (2 ^ (8 * Z.of_nat 0)) with 1. rewrite !Z.div_1_r.
  reflexivity.
Qed.

End PaddingFacts.

(** ** What the work-item starts from does not reach the digest *)

Module MemoryFacts.
Import Machine Kernel FIPS180 Props MachineFacts KernelFacts.
Import CompressionFacts PaddingFacts.

(** Filling the chunk assigns every cell: what the array held does not
    matter. *)
Lemma fill_chunk_from_any chunk input length chunk_idx :
  List.length chunk = 64%nat ->
  fill_chunk_from chunk input length chunk_idx
  = fill_chunk input length chunk_idx.
Proof.
  intros Hlen.
  transitivity
    (map (fun i => chunk_byte input length (int (chunk_idx * 64 + i)))
         (range 0 64)); [|symmetry; apply fill_chunk_map].
  unfold fill_chunk_from.
  rewrite (fold_left_ext _
    (fun chunk i =>
       store chunk i (chunk_byte input length (int (chunk_idx * 64 + i))))).
  - apply fold_store_all; [lia | exact Hlen].
  - intros c i. unfold chunk_byte.
    destruct (_ <? _); [reflexivity|]. destruct (_ =? _); reflexivity.
Qed.

(** The two schedule loops assign [w[0..15]] from the chunk and every
    later cell from cells assigned before it. *)
Lemma schedule_loops chunk w :
  List.length w = 80%nat ->
  extend_words (load_words chunk w)
  = extend 64 (map (kernel_word chunk) (map Z.of_nat (seq 0 16))).
Proof.
  intros Hlen.
  assert (L : load_words chunk w
              = map (kernel_word chunk) (map Z.of_nat (seq 0 16))
                ++ skipn 16 w).
  { unfold load_words. fold (kernel_word chunk).
    rewrite range_seq by lia.
    change (Z.to_nat 0) with 0%nat. change (Z.to_nat (16 - 0)) with 16%nat.
    pose proof (fold_store_segment (kernel_word chunk) 16 0 []
                  (firstn 16 w) (skipn 16 w) eq_refl) as E.
    cbn [app] in E. rewrite firstn_skipn in E.
    unfold kernel_word in E at 1. rewrite E; [reflexivity|].
    rewrite length_firstn. lia. }
  rewrite L. unfold extend_words. fold extend_step. rewrite range_seq by lia.
  change (Z.to_nat 16) with 16%nat. change (Z.to_nat (80 - 16)) with 64%nat.
  generalize (map (kernel_word chunk) (map Z.of_nat (seq 0 16))) (eq_refl :
    List.length (map (kernel_word chunk) (map Z.of_nat (seq 0 16))) = 16%nat).
  intros xs Hxs. rewrite <- Hxs.
  apply extend_steps; [rewrite length_skipn; lia | lia].
Qed.

Lemma schedule_from_any chunk w :
  List.length w = 80%nat ->
  extend_words (load_words chunk w) = schedule chunk.
Proof.
  intros Hlen. unfold schedule.
  rewrite (schedule_loops chunk w Hlen).
  now rewrite (schedule_loops chunk (repeat 0 80)).
Qed.

Lemma schedule_length chunk : List.length (schedule chunk) = 80%nat.
Proof.
  unfold schedule. rewrite (schedule_loops chunk (repeat 0 80)) by reflexivity.
  rewrite extend_length, !length_map, length_seq. reflexivity.
Qed.

Lemma process_chunk_rounds h chunk :
  process_chunk h chunk = rounds_and_add (schedule chunk) h.
Proof.
  unfold process_chunk, rounds_and_add.
  generalize (schedule chunk). intros w.
  destruct h as [[[[h0 h1] h2] h3] h4].
  generalize (fold_left (round w) (range 0 80) (h0, h1, h2, h3, h4)).
  intros s. reflexivity.
Qed.

(** One iteration leaves the arrays at their sizes and takes the state
    where [process_chunk] takes it. *)
Lemma chunk_iteration_any input length chunk w h chunk_idx :
  List.length chunk = 64%nat -> List.length w = 80%nat ->
  chunk_iteration input length (chunk, w, h) chunk_idx
  = (build_chunk input length chunk_idx,
     schedule (build_chunk input length chunk_idx),
     process_chunk h (build_chunk input length chunk_idx)).
Proof.
  intros Hc Hw. unfold chunk_iteration.
  rewrite (fill_chunk_from_any chunk) by exact Hc.
  fold (build_chunk input length chunk_idx).
  rewrite (schedule_from_any _ w Hw), <- process_chunk_rounds.
  reflexivity.
Qed.

Lemma chunk_iterations_any input length indices :
  forall chunk w h,
    List.length chunk = 64%nat -> List.length w = 80%nat ->
    snd (fold_left (chunk_iteration input length) indices (chunk, w, h))
    = fold_left (fun h chunk_idx =>
                   process_chunk h (build_chunk input length chunk_idx))
                indices h.
Proof.
  induction indices as [|chunk_idx rest IH]; intros chunk w h Hc Hw.
  - reflexivity.
  - cbn [fold_left]. rewrite chunk_iteration_any by assumption.
    apply IH; [apply build_chunk_length | apply schedule_length].
Qed.

(** The output loop assigns all twenty bytes. *)
Lemma write_output_any h output :
  List.length output = 20%nat ->
  write_output h output = write_output h (repeat 0 20).
Proof.
  intros Hlen.
  do 21 (destruct output as [|? output]; try discriminate Hlen).
  destruct h as [[[[h0 h1] h2] h3] h4]. reflexivity.
Qed.

(** The digest does not depend on what the arrays and the output buffer
    held when the work-item started. *)
Lemma sha1_kernel_from_any m input lengths :
  sha1_kernel_from m input lengths = sha1_kernel input lengths.
Proof.
  unfold sha1_kernel_from, sha1_kernel, chunk_loop.
  pose proof (chunk_iterations_any input (load lengths idx)
                (chunk_indices (load lengths idx))
                (chunk_cells m) (w_cells m) init_state
                (chunk_cells_length m) (w_cells_length m)) as E.
  revert E.
  generalize (fold_left
                (fun h chunk_idx =>
                   process_chunk h (build_chunk input (load lengths idx) chunk_idx))
                (chunk_indices (load lengths idx)) init_state).
  generalize (fold_left (chunk_iteration input (load lengths idx))
                        (chunk_indices (load lengths idx))
                        (chunk_cells m, w_cells m, init_state)).
  intros [[chunk w] h] h' E. cbn [snd] in E. subst h'.
  apply write_output_any, output_cells_length.
Qed.

End MemoryFacts.

(** ** The kernel computes SHA-1 where the length field fits *)

Module Refinement.
Import Machine Kernel FIPS180 Props MachineFacts KernelFacts.
Import CompressionFacts PaddingFacts.

(** For a message whose length leaves room for the length field behind the
    0x80 marker (length mod 64 below 56) and whose bit length fits in 32 bits
    (below 2^29 bytes), the kernel writes the reference digest. *)
Theorem kernel_matches_reference_when_field_fits :
  forall M : list Z,
    all_bytes M ->
    Z.of_nat (List.length M) < 2 ^ 29 ->
    Z.of_nat (List.length M) mod 64 < 56 ->
    sha1_kernel M [Z.of_nat (List.length M)] = SHA1 M.
Proof.
  intros M HM Hsmall Hroom.
  pose proof (Z.div_mod (Z.of_nat (List.length M)) 64 ltac:(lia)) as Hdm.
  pose proof (Z.mod_pos_bound (Z.of_nat (List.length M)) 64 ltac:(lia)) as Hmb.
  pose proof (Z.div_pos (Z.of_nat (List.length M)) 64 ltac:(lia) ltac:(lia))
    as Hdp.
  set (q := Z.of_nat (List.length M) / 64) in *.
  set (r := Z.of_nat (List.length M) mod 64) in *.
  unfold sha1_kernel.
  change (load [Z.of_nat (List.length M)] idx) with (Z.of_nat (List.length M)).
  rewrite write_output_bytes, chunk_loop_fold. unfold SHA1. f_equal.
  rewrite Hdm at 1.
  rewrite (processed_chunks_parse M q r) by lia.
  rewrite fold_process_compress; [reflexivity|].
  apply parse_blocks; [now apply pad_all_bytes|].
  apply Nat.Div0.mul_div_le.
Qed.

Lemma kernel_matches_reference_when_field_fits_witness :
  sha1_kernel (repeat 97 65) [65] = SHA1 (repeat 97 65).
Proof.
  apply (kernel_matches_reference_when_field_fits (repeat 97 65)).
  - repeat constructor; lia.
  - simpl. lia.
  - reflexivity.
Defined.

End Refinement.

(** ** The kernel against the specification *)

Module KernelSpec.
Import Machine Kernel Hex FIPS180 Props Examples MachineFacts KernelFacts.
Local Open Scope string_scope.

(** C1, at a message of 56 bytes: the reference digest is the published
    84983e44..., which needs a second block for the length field; the kernel
    compresses a single block in which the length bytes have replaced the
    0x80 marker, and writes another digest. *)
Theorem kernel_differs_from_reference_at_56_bytes :
  Z.of_nat (List.length fips_two_block_message) = 56%Z
  /\ hash_hex (SHA1 fips_two_block_message)
     = "84983e441c3bd26ebaae4aa1f95129e5e54670f1"
  /\ hash_hex (sha1_kernel fips_two_block_message [56%Z])
     = "1423848df9dec1f003ff7954a4124306766c8cc3"
  /\ sha1_kernel fips_two_block_message [56%Z] <> SHA1 fips_two_block_message
  /\ List.length (processed_chunks fips_two_block_message 56) = 1%nat
  /\ load (build_chunk fips_two_block_message 56 0) 56 <> 0x80%Z.
Proof.
  repeat split; try (vm_compute; reflexivity); vm_compute; discriminate.
Qed.

(** C2, at a message of 2^29 bytes (2^32 bits): the eight length bytes of
    the last chunk are all zero, whatever the message holds, while the
    64-bit big-endian bit length is 00 00 00 01 00 00 00 00. *)
Theorem length_field_wraps_at_2_pow_29_bytes :
  forall input : list Z,
    skipn 56 (build_chunk input 536870912 (Z.quot 536870912 64))
    = [0; 0; 0; 0; 0; 0; 0; 0]%Z
    /\ be_bytes 8 (8 * 536870912) = [0; 0; 0; 1; 0; 0; 0; 0]%Z.
Proof.
  intros input. split.
  - rewrite last_chunk_length_field. reflexivity.
  - reflexivity.
Qed.

(** C3: the chunk loop compresses [length / 64 + 1] chunks of 64 bytes, and
    when [length] is a multiple of 64 the last of them is 0x80, 55 zero
    bytes and the eight bytes of the length field. *)
Theorem chunk_count_and_all_padding_chunk :
  forall (input : list Z) (length : Z),
    (0 <= length < 2 ^ 31)%Z ->
    chunk_loop input length
    = fold_left process_chunk (processed_chunks input length) init_state
    /\ Z.of_nat (List.length (processed_chunks input length))
       = (length / 64 + 1)%Z
    /\ Forall (fun chunk => List.length chunk = 64%nat)
              (processed_chunks input length)
    /\ ((length mod 64 = 0)%Z ->
        last (processed_chunks input length) []
        = ([0x80%Z] ++ repeat 0%Z 55
           ++ be_bytes 8 ((8 * length) mod 2 ^ 32))%list).
Proof.
  intros input length Hl. repeat split.
  - apply chunk_loop_fold.
  - unfold processed_chunks, chunk_indices.
    rewrite length_map, range_length, Z.quot_div_nonneg by lia.
    pose proof (Z.div_pos length 64 ltac:(lia) ltac:(lia)). lia.
  - unfold processed_chunks. apply Forall_forall. intros chunk Hin.
    apply in_map_iff in Hin. destruct Hin as (ci & <- & _).
    apply build_chunk_length.
  - intros Hm. rewrite processed_chunks_last by lia.
    rewrite last_last. now apply last_chunk_aligned.
Qed.

Lemma chunk_count_and_all_padding_chunk_witness :
  chunk_loop (repeat 97%Z 64) 64
  = fold_left process_chunk (processed_chunks (repeat 97%Z 64) 64) init_state
  /\ Z.of_nat (List.length (processed_chunks (repeat 97%Z 64) 64)) = 2%Z
  /\ last (processed_chunks (repeat 97%Z 64) 64) []
     = ([0x80%Z] ++ repeat 0%Z 55 ++ [0; 0; 0; 0; 0; 0; 2; 0]%Z)%list.
Proof.
  destruct (chunk_count_and_all_padding_chunk (repeat 97%Z 64) 64 ltac:(lia))
    as (H1 & H2 & _ & H4).
  split; [exact H1|]. split; [exact H2|]. apply H4. reflexivity.
Defined.

End KernelSpec.

(** ** Device selection *)

Module SelectionFacts.
Import Host Props.

Ltac split_key k := destruct k as [[[? ?] ?] ?].

Lemma key_lt_code k1 k2 : key_lt k1 k2 = (key_code k1 <? key_code k2)%Z.
Proof.
  split_key k1; split_key k2. unfold key_lt, key_code, bool_lt.
  repeat match goal with
         | |- context [(?x <? ?y)%Z] => destruct (Z.ltb_spec x y)
         | b : bool |- _ => destruct b
         end; simpl; try reflexivity; lia.
Qed.

Lemma key_le_code d1 d2 :
  key_le d1 d2 <-> (key_code (key d1) <= key_code (key d2))%Z.
Proof.
  unfold key_le. rewrite key_lt_code. split; intros H.
  - apply Z.ltb_ge. exact H.
  - apply Z.ltb_ge. exact H.
Qed.

Lemma key_le_trans d1 d2 d3 : key_le d1 d2 -> key_le d2 d3 -> key_le d1 d3.
Proof. rewrite !key_le_code. lia. Qed.

Lemma key_le_total d1 d2 : key_lt (key d1) (key d2) = true -> key_le d1 d2.
Proof. rewrite key_le_code, key_lt_code. intros H%Z.ltb_lt. lia. Qed.

(** The flags of a key weigh less than one unit of memory. *)
Lemma key_code_bounds d :
  exists flags : Z,
    (key_code (key d) = - 8 * global_mem_size d + flags)%Z
    /\ (0 <= flags <= 7)%Z
    /\ (recognized d = false <-> flags = 0%Z).
Proof.
  unfold key, key_code, recognized.
  destruct (startswith _ "nvidia"), (startswith _ "amd"),
    (startswith _ "intel"); cbn [orb];
    match goal with
    | |- context [(_ + ?a + ?b + ?c)%Z] => exists (a + b + c)%Z
    end;
    (split; [lia|]; split; [lia|]; split; intros; try lia;
     try discriminate; try reflexivity).
Qed.

Lemma key_le_memory d1 d2 :
  key_le d1 d2 -> (global_mem_size d2 <= global_mem_size d1)%Z.
Proof.
  rewrite key_le_code.
  destruct (key_code_bounds d1) as (f1 & -> & B1 & _).
  destruct (key_code_bounds d2) as (f2 & -> & B2 & _). lia.
Qed.

Lemma insert_perm d l : Permutation (insert d l) (d :: l).
Proof.
  induction l as [|y l IH]; cbn [insert].
  - apply Permutation_refl.
  - destruct (key_lt (key y) (key d)).
    + eapply perm_trans; [apply perm_skip, IH | apply perm_swap].
    + apply Permutation_refl.
Qed.

Lemma sorted_perm l : Permutation (sorted l) l.
Proof.
  induction l as [|d l IH]; cbn [sorted].
  - apply perm_nil.
  - eapply perm_trans; [apply insert_perm | apply perm_skip, IH].
Qed.

Lemma insert_sorted d l :
  StronglySorted key_le l -> StronglySorted key_le (insert d l).
Proof.
  induction 1 as [|y l Hs IH Hall]; cbn [insert].
  - constructor; constructor.
  - destruct (key_lt (key y) (key d)) eqn:E.
    + constructor; [exact IH|].
      apply (Permutation_Forall (Permutation_sym (insert_perm d l))).
      constructor; [now apply key_le_total | exact Hall].
    + constructor; [now constructor|].
      constructor; [exact E|].
      eapply Forall_impl; [|exact Hall].
      intros z Hz. eapply key_le_trans; [exact E | exact Hz].
Qed.

Lemma sorted_sorted l : StronglySorted key_le (sorted l).
Proof.
  induction l as [|d l IH]; cbn [sorted];
    [constructor | now apply insert_sorted].
Qed.

Lemma StronglySorted_app_r {A} (R : A -> A -> Prop) l1 l2 :
  StronglySorted R (l1 ++ l2) -> StronglySorted R l2.
Proof.
  induction l1 as [|x l1 IH]; simpl; intros H; [exact H|].
  apply StronglySorted_inv in H. now apply IH.
Qed.

(** The head of the sorted list is below every device of the list. *)
Lemma sorted_head_least l d rest :
  sorted l = d :: rest -> forall d', In d' l -> key_le d d'.
Proof.
  intros E d' Hin.
  pose proof (sorted_sorted l) as S. rewrite E in S.
  apply StronglySorted_inv in S. destruct S as [_ Hall].
  apply (Permutation_in _ (Permutation_sym (sorted_perm l))) in Hin.
  rewrite E in Hin. destruct Hin as [<-|Hin].
  - apply key_le_code. lia.
  - rewrite Forall_forall in Hall. now apply Hall.
Qed.

Lemma sorted_nonempty l : l <> [] -> exists d rest, sorted l = d :: rest.
Proof.
  intros Hne. destruct (sorted l) as [|d rest] eqn:E; [|eauto].
  pose proof (sorted_perm l) as P. rewrite E in P.
  apply Permutation_nil in P. contradiction.
Qed.

(** The stable choice: the head after inserting [d] in front changes only
    when nothing placed so far has a strictly smaller key. *)
Lemma sorted_head_cons d l :
  hd_error (sorted (d :: l))
  = match hd_error (sorted l) with
    | Some y => if key_lt (key y) (key d) then Some y else Some d
    | None => Some d
    end.
Proof.
  cbn [sorted]. destruct (sorted l) as [|y rest]; cbn [insert hd_error];
    [reflexivity|].
  destruct (key_lt (key y) (key d)); reflexivity.
Qed.

Lemma select_best_device_max devices :
  devices <> [] ->
  exists d, select_best_device devices = inr d /\ In d devices
            /\ forall d', In d' devices -> key_le d d'.
Proof.
  intros Hne. destruct (sorted_nonempty devices Hne) as (d & rest & E).
  exists d. unfold select_best_device. rewrite E. split; [reflexivity|].
  split.
  - apply (Permutation_in _ (sorted_perm devices)). rewrite E. now left.
  - now apply (sorted_head_least devices d rest).
Qed.

End SelectionFacts.

(** ** The batch loop and the output name *)

Module HostFacts.
Import Host Props RunProps.

Lemma hash_file_ok w context file_path entry :
  hash_file w context file_path = inr entry ->
  exists data,
    read_file w file_path = Some data
    /\ cl_fault w context file_path = false
    /\ (Z.of_nat (List.length data) < 2 ^ 31)%Z
    /\ entry = digest_entry file_path data.
Proof.
  unfold hash_file, bind, ret, raise, digest_entry.
  destruct (read_file w file_path) as [data|]; [|discriminate].
  destruct data as [|b data]; [discriminate|].
  destruct (cl_fault w context file_path); [discriminate|].
  destruct (Z.ltb_spec (Z.of_nat (List.length (b :: data))) (2 ^ 31));
    [|discriminate].
  intros [= <-]. exists (b :: data).
  rewrite MemoryFacts.sha1_kernel_from_any. auto.
Qed.

(** Line 163 on an empty file. *)
Lemma hash_file_empty w context file_path :
  read_file w file_path = Some [] ->
  hash_file w context file_path = inl (CLError file_path).
Proof. intros Hr. unfold hash_file, bind, ret, raise. now rewrite Hr. Qed.

Lemma hash_file_run w context file_path data :
  read_file w file_path = Some data ->
  data <> [] ->
  cl_fault w context file_path = false ->
  (Z.of_nat (List.length data) < 2 ^ 31)%Z ->
  hash_file w context file_path = inr (digest_entry file_path data).
Proof.
  intros Hr Hne Hf Hl. unfold hash_file, bind, ret, raise, digest_entry.
  rewrite Hr. destruct data as [|b data]; [contradiction|]. rewrite Hf.
  destruct (Z.ltb_spec (Z.of_nat (List.length (b :: data))) (2 ^ 31)); [|lia].
  now rewrite MemoryFacts.sha1_kernel_from_any.
Qed.

(** The loop stops at the first file whose iteration raises. *)
Lemma hashing_loop_failure w context pre file_path post e :
  (forall q, In q pre -> exists r, hash_file w context q = inr r) ->
  hash_file w context file_path = inl e ->
  forall hashes,
    hashing_loop w context (pre ++ file_path :: post) hashes = inl e.
Proof.
  intros Hpre Hfail. induction pre as [|q pre IH]; intros hashes.
  - cbn [app hashing_loop]. rewrite Hfail. reflexivity.
  - cbn [app hashing_loop].
    destruct (Hpre q (or_introl eq_refl)) as [r ->]. cbn [bind].
    apply IH. intros q' Hq'. apply Hpre. now right.
Qed.

(** Without a failure every file contributes its entry, in order. *)
Lemma hashing_loop_success w context file_paths :
  (forall q, In q file_paths -> exists r, hash_file w context q = inr r) ->
  forall hashes,
  exists entries,
    hashing_loop w context file_paths hashes = inr (hashes ++ entries)
    /\ Forall2 (fun q r => hash_file w context q = inr r) file_paths entries.
Proof.
  induction file_paths as [|q rest IH]; intros Hall hashes.
  - exists []. rewrite app_nil_r. split; [reflexivity | constructor].
  - destruct (Hall q (or_introl eq_refl)) as [r Hr].
    destruct (IH (fun q' H => Hall q' (or_intror H)) (hashes ++ [r]))
      as (entries & E & F).
    exists (r :: entries). cbn [hashing_loop]. rewrite Hr. cbn [bind].
    rewrite E, <- app_assoc. split; [reflexivity | now constructor].
Qed.

(** Every entry returned comes from one iteration of the loop. *)
Lemma hashing_loop_entries w context file_paths :
  forall hashes result,
    hashing_loop w context file_paths hashes = inr result ->
    forall entry, In entry result ->
      In entry hashes
      \/ exists q, In q file_paths /\ hash_file w context q = inr entry.
Proof.
  induction file_paths as [|q rest IH]; intros hashes result E entry Hin.
  - cbn [hashing_loop] in E. injection E as <-. now left.
  - cbn [hashing_loop] in E.
    destruct (hash_file w context q) as [e|r] eqn:Hq; [discriminate|].
    cbn [bind] in E. destruct (IH _ _ E entry Hin) as [H|(q' & Hq' & H)].
    + apply in_app_or in H. destruct H as [H|[<-|[]]].
      * now left.
      * right. exists q. split; [now left | exact Hq].
    + right. exists q'. split; [now right | exact H].
Qed.

(** Every entry of a returned batch stands for a file that hashed. *)
Lemma hashing_loop_all w context file_paths :
  forall hashes result,
    hashing_loop w context file_paths hashes = inr result ->
    forall q, In q file_paths -> exists r, hash_file w context q = inr r.
Proof.
  induction file_paths as [|p rest IH]; intros hashes result E q Hin.
  - destruct Hin.
  - cbn [hashing_loop] in E.
    destruct (hash_file w context p) as [e|r] eqn:Hp; [discriminate|].
    cbn [bind] in E. destruct Hin as [<-|Hin]; [eauto|].
    eapply IH; eassumption.
Qed.

Lemma choose_output_stop w args o :
  choose_output w args = inl o -> reached_hashing o = false.
Proof.
  assert (D : default_output w = inl o -> reached_hashing o = false).
  { unfold default_output.
    destruct (path_exists w _); [|discriminate].
    destruct (generate_unique_filename _ _ _); [|discriminate].
    intros [= <-]. reflexivity. }
  unfold choose_output. destruct (output args) as [x|]; [|exact D].
  destruct (String.eqb x ""); [exact D|].
  destruct (path_exists w _); [|discriminate]. intros [= <-]. reflexivity.
Qed.

Lemma find_devices_stop w o :
  find_devices w = inl o -> reached_hashing o = false.
Proof.
  unfold find_devices. destruct (platforms w) as [|[|d l] rest];
    try discriminate; intros [= <-]; reflexivity.
Qed.

(** The two queries answer, or [CLQueryError] leaves [main]. *)
Lemma query_devices_cases w :
  query_devices w = find_devices w
  \/ query_devices w = inl (Uncaught CLQueryError).
Proof.
  unfold query_devices. destruct (get_platforms_fault w); [now right|].
  destruct (platforms w) as [|platform0 rest]; [now left|].
  destruct (get_devices_fault w 0); [now right | now left].
Qed.

Lemma query_devices_ok w devices :
  query_devices w = inr devices -> find_devices w = inr devices.
Proof.
  destruct (query_devices_cases w) as [-> | ->]; [auto | discriminate].
Qed.

Lemma query_devices_stop w o :
  query_devices w = inl o -> reached_hashing o = false.
Proof.
  destruct (query_devices_cases w) as [-> | ->];
    [apply find_devices_stop | intros [= <-]; reflexivity].
Qed.

Lemma select_device_stop devices device_arg o :
  select_device devices device_arg = inl o -> reached_hashing o = false.
Proof.
  unfold select_device. destruct device_arg as [n|].
  - destruct (orb _ _); [intros [= <-]; reflexivity|].
    destruct (nth_error _ _); [discriminate|]. intros [= <-]. reflexivity.
  - destruct (select_best_device devices); [|discriminate].
    intros [= <-]. reflexivity.
Qed.

Lemma run_listing_stop w : reached_hashing (run_listing w) = false.
Proof. unfold run_listing. destruct (orb _ _); reflexivity. Qed.

(** What [main] has done when it gets as far as hashing. *)
Lemma main_reached w args :
  reached_hashing (main w args) = true ->
  exists dir p devices context files,
    list_flag args = false
    /\ path args = Some dir /\ isdir w dir = true /\ access_R w dir = true
    /\ choose_output w args = inr p
    /\ access_W w (dirname p) = true
    /\ find_devices w = inr devices
    /\ select_device devices (device args) = inr context
    /\ scan_directory w dir (recursive args) = Some files
    /\ main w args = hash_and_write w context p files.
Proof.
  unfold main. destruct (list_flag args).
  { rewrite run_listing_stop. discriminate. }
  destruct (path args) as [dir|]; [|discriminate].
  destruct (String.eqb dir ""); [discriminate|].
  destruct (isdir w dir) eqn:Hd; [|discriminate].
  destruct (access_R w dir) eqn:Hr; [|discriminate]. cbn [negb].
  destruct (choose_output w args) as [stop|p] eqn:Ho.
  { intros H. apply choose_output_stop in Ho. congruence. }
  destruct (access_W w (dirname p)) eqn:Hw; [|discriminate]. cbn [negb].
  destruct (query_devices w) as [stop|devices] eqn:Hf.
  { intros H. apply query_devices_stop in Hf. congruence. }
  apply query_devices_ok in Hf.
  destruct (select_device devices (device args)) as [stop|context] eqn:Hs.
  { intros H. apply select_device_stop in Hs. congruence. }
  destruct (setup_fault w context); [discriminate|].
  destruct (scan_directory w dir (recursive args)) as [files|] eqn:Hscan;
    [|discriminate].
  intros _. exists dir, p, devices, context, files. repeat split; auto.
Qed.

Lemma main_written w args p hashes :
  main w args = Written p hashes ->
  exists dir devices context files,
    path args = Some dir /\ isdir w dir = true /\ access_R w dir = true
    /\ choose_output w args = inr p
    /\ access_W w (dirname p) = true
    /\ find_devices w = inr devices
    /\ select_device devices (device args) = inr context
    /\ scan_directory w dir (recursive args) = Some files
    /\ perform_hashing w context files = inr hashes.
Proof.
  intros H.
  destruct (main_reached w args) as
    (dir & p' & devices & context & files
     & _ & Hp & Hd & Hr & Ho & Hw & Hf & Hs & Hscan & E).
  { rewrite H. reflexivity. }
  rewrite E in H. unfold hash_and_write in H.
  destruct (perform_hashing w context _) as [e|hashes'] eqn:Hh; [discriminate|].
  injection H as -> ->.
  exists dir, devices, context, files. repeat split; auto.
Qed.

(** The names tried for indices [s .. s+n-1]. *)
Lemma try_names_seq path_exists base_name directory n :
  forall s,
    match try_names path_exists base_name directory (seq s n) with
    | inr p =>
        exists i, (s <= i < s + n)%nat
                  /\ p = candidate base_name directory i
                  /\ path_exists p = false
                  /\ forall j, (s <= j < i)%nat ->
                       path_exists (candidate base_name directory j) = true
    | inl e =>
        e = FileExistsError
        /\ forall j, (s <= j < s + n)%nat ->
             path_exists (candidate base_name directory j) = true
    end.
Proof.
  induction n as [|n IH]; intros s; cbn [seq try_names].
  - split; [reflexivity | intros; lia].
  - fold (candidate base_name directory s).
    destruct (path_exists (candidate base_name directory s)) eqn:E;
      cbn [negb].
    + specialize (IH (S s)).
      destruct (try_names path_exists base_name directory (seq (S s) n))
        as [e|p].
      * destruct IH as [-> IH]. split; [reflexivity|].
        intros j Hj. destruct (Nat.eq_dec j s) as [->|]; [exact E|].
        apply IH. lia.
      * destruct IH as (i & Hi & -> & Hfree & Hbusy).
        exists i. split; [lia|]. split; [reflexivity|].
        split; [exact Hfree|].
        intros j Hj. destruct (Nat.eq_dec j s) as [->|]; [exact E|].
        apply Hbusy. lia.
    + exists s. split; [lia|]. split; [reflexivity|].
      split; [exact E | intros; lia].
Qed.

Lemma append_cancel_l (p a b : string) :
  (p ++ a)%string = (p ++ b)%string -> a = b.
Proof.
  induction p as [|c p IH]; cbn [String.append]; intros H; [exact H|].
  injection H as H. now apply IH.
Qed.

Lemma format_03d_decode i :
  (i < 1000)%nat -> decode_03d (format_03d i ++ ".txt")%string = Some i.
Proof.
  intros Hi.
  assert (H : forallb
                (fun i => match decode_03d (format_03d i ++ ".txt")%string with
                          | Some k => Nat.eqb k i
                          | None => false
                          end)
                (seq 0 1000) = true) by (vm_compute; reflexivity).
  rewrite forallb_forall in H. specialize (H i).
  destruct (decode_03d (format_03d i ++ ".txt")%string) as [k|].
  - f_equal. apply Nat.eqb_eq, H, in_seq. lia.
  - discriminate H. apply in_seq. lia.
Qed.

Lemma startswith_sep_head (base_name x y : string) :
  startswith (base_name ++ "_" ++ x)%string "/"
  = startswith (base_name ++ "_" ++ y)%string "/".
Proof.
  assert (P : forall s, String.prefix "" s = true) by (intros [|? ?]; reflexivity).
  unfold startswith.
  destruct base_name as [|c rest]; cbn [String.append String.prefix].
  - destruct (Ascii.ascii_dec "/" "_"); [discriminate | reflexivity].
  - destruct (Ascii.ascii_dec "/" c); [now rewrite !P | reflexivity].
Qed.

(** The thousand names tried are pairwise different. *)
Lemma candidate_injective base_name directory i j :
  (i < 1000)%nat -> (j < 1000)%nat ->
  candidate base_name directory i = candidate base_name directory j -> i = j.
Proof.
  intros Hi Hj E.
  assert (T : (format_03d i ++ ".txt")%string = (format_03d j ++ ".txt")%string).
  { unfold candidate, path_join in E.
    rewrite (startswith_sep_head base_name _ (format_03d j ++ ".txt")) in E.
    destruct (startswith _ "/").
    - apply append_cancel_l in E. now injection E.
    - destruct (orb _ _).
      + apply append_cancel_l, append_cancel_l in E. now injection E.
      + apply append_cancel_l in E. injection E as E.
        apply append_cancel_l in E. now injection E. }
  apply (f_equal decode_03d) in T.
  rewrite !format_03d_decode in T by assumption. now injection T.
Qed.

Lemma candidates_distinct base_name directory :
  NoDup (map (candidate base_name directory) (seq 0 1000)).
Proof.
  apply NoDup_map_NoDup_ForallPairs; [|apply seq_NoDup].
  intros i j Hi Hj E. apply in_seq in Hi, Hj.
  apply (candidate_injective base_name directory); [lia | lia | exact E].
Qed.

End HostFacts.

(** ** The host program against the specification *)

Module HostSpec.
Import Host Props Examples SelectionFacts HostFacts.
Local Open Scope string_scope.

Lemma select_device_in devices device_arg d :
  select_device devices device_arg = inr d -> In d devices.
Proof.
  unfold select_device. destruct device_arg as [n|].
  - destruct (orb _ _); [discriminate|].
    destruct (nth_error devices (Z.to_nat n)) as [d'|] eqn:E; [|discriminate].
    intros [= <-]. eapply nth_error_In, E.
  - unfold select_best_device, ret, raise.
    destruct (sorted devices) as [|d' rest] eqn:E; [discriminate|].
    intros [= <-].
    apply (Permutation_in _ (sorted_perm devices)). rewrite E. now left.
Qed.

(** C6: on a non-empty catalog, an index in range returns the device at
    that index whatever its memory, an index out of range stops with the
    out-of-range error, and without an index the device returned is one of
    the catalog with the largest memory; for memories 1, 2, 4 it is the
    device of memory 4. *)
Theorem select_device_spec :
  forall devices : list Device,
    devices <> [] ->
    (forall n d, (0 <= n)%Z -> nth_error devices (Z.to_nat n) = Some d ->
                 select_device devices (Some n) = inr d)
    /\ (forall n, (n < 0 \/ Z.of_nat (List.length devices) <= n)%Z ->
                  select_device devices (Some n)
                  = inl (Stopped (DeviceOutOfRange n)))
    /\ (exists d, select_device devices None = inr d /\ In d devices
                  /\ forall d', In d' devices ->
                       (global_mem_size d' <= global_mem_size d)%Z)
    /\ (forall d1 d2 d3,
           devices = [d1; d2; d3] ->
           global_mem_size d1 = 1%Z -> global_mem_size d2 = 2%Z ->
           global_mem_size d3 = 4%Z ->
           select_device devices None = inr d3).
Proof.
  intros devices Hne.
  assert (Hbest : exists d, select_device devices None = inr d /\ In d devices
                  /\ forall d', In d' devices ->
                       (global_mem_size d' <= global_mem_size d)%Z).
  { destruct (select_best_device_max devices Hne) as (d & E & Hin & Hmin).
    exists d. unfold select_device. rewrite E. split; [reflexivity|].
    split; [exact Hin|]. intros d' Hd'. now apply key_le_memory, Hmin. }
  split; [|split; [|split; [exact Hbest|]]].
  - intros n d Hn Hnth. unfold select_device.
    assert (Z.to_nat n < List.length devices)%nat
      by (apply nth_error_Some; congruence).
    destruct (Z.ltb_spec n 0); [lia|].
    rewrite Z.geb_leb.
    destruct (Z.leb_spec (Z.of_nat (List.length devices)) n); [lia|].
    cbn [orb]. now rewrite Hnth.
  - intros n Hn. unfold select_device.
    destruct (Z.ltb_spec n 0); [reflexivity|].
    rewrite Z.geb_leb.
    destruct (Z.leb_spec (Z.of_nat (List.length devices)) n); [|lia].
    reflexivity.
  - intros d1 d2 d3 -> M1 M2 M3.
    destruct Hbest as (d & E & Hin & Hmax). rewrite E. f_equal.
    pose proof (Hmax d3 (or_intror (or_intror (or_introl eq_refl)))) as H3.
    destruct Hin as [<-|[<-|[<-|[]]]]; [lia | lia | reflexivity].
Qed.

Lemma select_device_spec_witness :
  catalog_124 <> []
  /\ select_device catalog_124 (Some 0%Z) = inr device_1
  /\ select_device catalog_124 (Some 3%Z) = inl (Stopped (DeviceOutOfRange 3))
  /\ select_device catalog_124 (Some (-1)%Z)
     = inl (Stopped (DeviceOutOfRange (-1)))
  /\ select_device catalog_124 None = inr device_4.
Proof.
  assert (Hne : catalog_124 <> []) by discriminate.
  destruct (select_device_spec catalog_124 Hne) as (H1 & H2 & _ & H4).
  split; [exact Hne|]. split; [|split; [|split]].
  - apply H1; [lia | reflexivity].
  - apply H2. right. simpl. lia.
  - apply H2. left. lia.
  - apply (H4 device_1 device_2 device_4); reflexivity.
Defined.

(** C10: at equal memory the sorted list has every device of an
    unrecognized vendor in front of every NVIDIA, AMD or Intel device, and
    when a device of an unrecognized vendor has the largest memory of the
    catalog, the device selected is of an unrecognized vendor with that
    memory. *)
Theorem unrecognized_vendor_wins_memory_tie :
  (forall devices d1 d2 l1 l2,
      sorted devices = (l1 ++ d2 :: l2)%list ->
      In d1 devices ->
      global_mem_size d1 = global_mem_size d2 ->
      recognized d1 = false -> recognized d2 = true ->
      In d1 l1 /\ ~ In d1 l2)
  /\ (forall devices d,
         In d devices ->
         (forall d', In d' devices ->
                     (global_mem_size d' <= global_mem_size d)%Z) ->
         recognized d = false ->
         exists s, select_best_device devices = inr s
                   /\ recognized s = false
                   /\ global_mem_size s = global_mem_size d).
Proof.
  split.
  - intros devices d1 d2 l1 l2 E Hin Hmem R1 R2.
    assert (Hlt : key_lt (key d1) (key d2) = true).
    { rewrite key_lt_code. apply Z.ltb_lt.
      destruct (key_code_bounds d1) as (f1 & -> & B1 & Z1).
      destruct (key_code_bounds d2) as (f2 & -> & B2 & Z2).
      apply Z1 in R1. assert (f2 <> 0%Z) by (intros H; apply Z2 in H; congruence).
      lia. }
    assert (Hnot : ~ In d1 l2).
    { intros Hl2. pose proof (sorted_sorted devices) as S. rewrite E in S.
      apply StronglySorted_app_r, StronglySorted_inv in S.
      destruct S as [_ Hall]. rewrite Forall_forall in Hall.
      specialize (Hall d1 Hl2). unfold key_le in Hall. congruence. }
    split; [|exact Hnot].
    apply (Permutation_in _ (Permutation_sym (sorted_perm devices))) in Hin.
    rewrite E in Hin. apply in_app_or in Hin.
    destruct Hin as [H|[H|H]]; [exact H | | contradiction].
    subst d2. congruence.
  - intros devices d Hin Hmax R.
    assert (Hne : devices <> []) by (intros ->; contradiction).
    destruct (select_best_device_max devices Hne) as (s & E & Hs & Hmin).
    exists s. split; [exact E|].
    specialize (Hmin d Hin). apply key_le_code in Hmin.
    specialize (Hmax s Hs).
    destruct (key_code_bounds s) as (fs & Es & Bs & Zs).
    destruct (key_code_bounds d) as (fd & Ed & Bd & Zd).
    apply Zd in R. rewrite Es, Ed in Hmin.
    split; [apply Zs; lia | lia].
Qed.

Lemma unrecognized_vendor_wins_memory_tie_witness :
  (In tie_other [tie_other; tie_intel] /\ ~ In tie_other [])
  /\ exists s, select_best_device catalog_tie = inr s
               /\ recognized s = false
               /\ global_mem_size s = 8%Z.
Proof.
  destruct unrecognized_vendor_wins_memory_tie as [Horder Hfirst]. split.
  - apply (Horder catalog_tie tie_other tie_nvidia
                  [tie_other; tie_intel] []); try reflexivity.
    right. now left.
  - apply (Hfirst catalog_tie tie_other).
    + right. now left.
    + intros d' [<-|[<-|[<-|[]]]]; simpl; lia.
    + reflexivity.
Defined.






(** C8: when the default output path is taken, the path chosen is the first
    of the thousand pairwise different candidates output_000.txt ..
    output_999.txt that is free: it does not exist and is not the default
    path; when all thousand exist, [FileExistsError] leaves [main]. *)
Theorem output_collision_policy :
  forall (w : World) (args : Args),
    output args = None \/ output args = Some "" ->
    path_exists w (default_path w) = true ->
    NoDup (map (candidate "output" (getcwd w)) (seq 0 1000))
    /\
    match choose_output w args with
    | inr p =>
        path_exists w p = false
        /\ p <> default_path w
        /\ exists i, (i < 1000)%nat
                     /\ p = candidate "output" (getcwd w) i
                     /\ forall j, (j < i)%nat ->
                          path_exists w (candidate "output" (getcwd w) j) = true
    | inl stop =>
        stop = Uncaught FileExistsError
        /\ (forall i, (i < 1000)%nat ->
              path_exists w (candidate "output" (getcwd w) i) = true)
        /\ (forall p, list_flag args = false -> path args = Some p ->
              p <> "" -> isdir w p = true -> access_R w p = true ->
              main w args = Uncaught FileExistsError)
    end.
Proof.
  intros w args Hout Hex. split; [apply candidates_distinct|].
  assert (E : choose_output w args = default_output w)
    by (unfold choose_output; destruct Hout as [-> | ->]; reflexivity).
  assert (D : default_output w
              = match generate_unique_filename (path_exists w) "output" (getcwd w) with
                | inr p => inr p
                | inl e => inl (Uncaught e)
                end).
  { unfold default_output. fold (default_path w).
    change (path_join (getcwd w) ("output" ++ ".csv")) with (default_path w).
    now rewrite Hex. }
  pose proof (try_names_seq (path_exists w) "output" (getcwd w) 1000 0) as T.
  fold (generate_unique_filename (path_exists w) "output" (getcwd w)) in T.
  rewrite E, D.
  destruct (generate_unique_filename (path_exists w) "output" (getcwd w))
    as [e|p] eqn:G.
  - destruct T as [-> Hall].
    split; [reflexivity|]. split; [intros i Hi; apply Hall; lia|].
    intros p Hl Hp Hne Hd Hr. unfold main. rewrite Hl, Hp.
    destruct (String.eqb_spec p ""); [contradiction|].
    rewrite Hd, Hr. cbn [negb]. rewrite E, D. reflexivity.
  - destruct T as (i & Hi & -> & Hfree & Hbusy).
    split; [exact Hfree|]. split; [congruence|].
    exists i. split; [lia|]. split; [reflexivity|].
    intros j Hj. apply Hbusy. lia.
Qed.

Lemma output_collision_policy_witness :
  choose_output world_output_taken run_args = inr "/work/output_002.txt"
  /\ path_exists world_output_taken "/work/output_002.txt" = false
  /\ "/work/output_002.txt" <> default_path world_output_taken.
Proof.
  pose proof (output_collision_policy world_output_taken run_args
                (or_introl eq_refl) eq_refl) as [_ H].
  change (choose_output world_output_taken run_args)
    with (@inr outcome string "/work/output_002.txt") in H.
  cbv beta iota in H. destruct H as (H1 & H2 & _).
  split; [reflexivity|]. split; [exact H1 | exact H2].
Defined.




(** C9: an entry of a successful batch carries the digest the kernel
    computes from the bytes of its file, whatever the arrays and the output
    buffer held when the kernel was launched: two entries for files with the
    same bytes carry the same digest, whatever device and left-over memory
    each batch ran on and wherever the files stand in their batches. *)
Theorem digest_depends_on_content_only :
  forall (w1 w2 : World) (context1 context2 : Device)
         (file_paths1 file_paths2 : list string)
         (hashes1 hashes2 : list (string * string))
         (p1 p2 h1 h2 : string) (data : list Z),
    perform_hashing w1 context1 file_paths1 = inr hashes1 ->
    perform_hashing w2 context2 file_paths2 = inr hashes2 ->
    In (p1, h1) hashes1 -> In (p2, h2) hashes2 ->
    read_file w1 p1 = Some data -> read_file w2 p2 = Some data ->
    h1 = h2
    /\ forall m : Kernel.memory,
         h1 = Hex.hash_hex
                (Kernel.sha1_kernel_from m data [Z.of_nat (List.length data)]).
Proof.
  intros w1 w2 context1 context2 file_paths1 file_paths2 hashes1 hashes2
         p1 p2 h1 h2 data E1 E2 In1 In2 R1 R2.
  assert (D : forall w context file_paths hashes p h,
             perform_hashing w context file_paths = inr hashes ->
             In (p, h) hashes -> read_file w p = Some data ->
             h = Hex.hash_hex
                   (Kernel.sha1_kernel data [Z.of_nat (List.length data)])).
  { intros w context file_paths hashes p h E Hin R.
    destruct (hashing_loop_entries w context file_paths [] hashes E (p, h) Hin)
      as [[]|(q & _ & Hq)].
    apply hash_file_ok in Hq. destruct Hq as (data' & R' & _ & _ & Heq).
    unfold digest_entry in Heq. injection Heq as -> ->.
    rewrite R in R'. injection R' as <-. reflexivity. }
  rewrite (D _ _ _ _ _ _ E1 In1 R1), (D _ _ _ _ _ _ E2 In2 R2).
  split; [reflexivity|]. intros m.
  now rewrite MemoryFacts.sha1_kernel_from_any.
Qed.

Lemma digest_depends_on_content_only_witness :
  perform_hashing world_one_fault device_4 ["/data/a"; "/data/b"]
  = inr [("/data/a", "86f7e437faa5a7fce15d1ddcb9eaeaea377667b8");
         ("/data/b", "e9d71f5ee7c92d6dc9e92ffdad17b8bd49418f98")]
  /\ perform_hashing world_other tie_other ["/other/e"; "/other/a"]
     = inr [("/other/e", "58e6b3a414a1e090dfc6029add0f3555ccba127f");
            ("/other/a", "86f7e437faa5a7fce15d1ddcb9eaeaea377667b8")]
  /\ Kernel.chunk_cells (stale_memory world_one_fault device_4 "/data/a")
     <> Kernel.chunk_cells (stale_memory world_other tie_other "/other/a")
  /\ "86f7e437faa5a7fce15d1ddcb9eaeaea377667b8"
     = Hex.hash_hex
         (Kernel.sha1_kernel_from (leftover 200) (Hex.bytes_of_string "a") [1%Z]).
Proof.
  assert (E1 : perform_hashing world_one_fault device_4 ["/data/a"; "/data/b"]
               = inr [("/data/a", "86f7e437faa5a7fce15d1ddcb9eaeaea377667b8");
                      ("/data/b", "e9d71f5ee7c92d6dc9e92ffdad17b8bd49418f98")])
    by (vm_compute; reflexivity).
  assert (E2 : perform_hashing world_other tie_other ["/other/e"; "/other/a"]
               = inr [("/other/e", "58e6b3a414a1e090dfc6029add0f3555ccba127f");
                      ("/other/a", "86f7e437faa5a7fce15d1ddcb9eaeaea377667b8")])
    by (vm_compute; reflexivity).
  split; [exact E1|]. split; [exact E2|].
  split; [vm_compute; discriminate|].
  apply (digest_depends_on_content_only
           world_one_fault world_other device_4 tie_other _ _ _ _
           "/data/a" "/other/a"
           "86f7e437faa5a7fce15d1ddcb9eaeaea377667b8"
           "86f7e437faa5a7fce15d1ddcb9eaeaea377667b8"
           (Hex.bytes_of_string "a") E1 E2).
  - now left.
  - right. now left.
  - reflexivity.
  - reflexivity.
Defined.

(** C4: the first vector is out of the program's reach: for a zero-byte
    file the buffer creation of line 163 raises, so [perform_hashing] raises
    for every batch that holds the file, [main] reports the error and
    writes nothing, and no written report has an entry for the file,
    although the kernel launched on the empty message would write
    da39a3ee..., the reference digest.  A file holding abc hashes to the 40
    characters a9993e36...d89d. *)
Theorem empty_file_is_not_hashed :
  forall (w : World) (context : Device) (file_path : string),
    read_file w file_path = Some [] ->
    hash_file w context file_path = inl (CLError file_path)
    /\ (forall file_paths output_path,
          In file_path file_paths ->
          exists e,
            perform_hashing w context file_paths = inl e
            /\ hash_and_write w context output_path file_paths = HashingError e)
    /\ (forall args output_path hashes h,
          main w args = Written output_path hashes ->
          ~ In (file_path, h) hashes)
    /\ (forall m : Kernel.memory,
          Hex.hash_hex (Kernel.sha1_kernel_from m [] [0%Z])
          = "da39a3ee5e6b4b0d3255bfef95601890afd80709")
    /\ Hex.hash_hex (FIPS180.SHA1 [])
       = "da39a3ee5e6b4b0d3255bfef95601890afd80709"
    /\ (forall q,
          read_file w q = Some (Hex.bytes_of_string "abc") ->
          cl_fault w context q = false ->
          hash_file w context q
          = inr (q, "a9993e364706816aba3e25717850c26c9cd0d89d")).
Proof.
  intros w context file_path Hempty.
  pose proof (hash_file_empty w context file_path Hempty) as Hfail.
  split; [exact Hfail|]. split; [|split; [|split; [|split]]].
  - intros file_paths output_path Hin. unfold hash_and_write.
    destruct (perform_hashing w context file_paths) as [e|hashes] eqn:E.
    + exists e. split; reflexivity.
    + destruct (hashing_loop_all w context file_paths [] hashes E
                                 file_path Hin) as [r Hr].
      congruence.
  - intros args output_path hashes h Hmain Hin.
    destruct (main_written w args output_path hashes Hmain)
      as (dir & devices & device & files & _ & _ & _ & _ & _ & _ & _ & _ & Hp).
    destruct (hashing_loop_entries w device files [] hashes Hp
                                   (file_path, h) Hin) as [[]|(q & _ & Hq)].
    pose proof Hq as Hq'. apply hash_file_ok in Hq'.
    destruct Hq' as (data & _ & _ & _ & Heq).
    unfold digest_entry in Heq. injection Heq as <- _.
    rewrite (hash_file_empty w device file_path Hempty) in Hq. discriminate.
  - intros m. rewrite MemoryFacts.sha1_kernel_from_any.
    vm_compute. reflexivity.
  - vm_compute. reflexivity.
  - intros q Hr Hf.
    rewrite (hash_file_run w context q (Hex.bytes_of_string "abc") Hr);
      [|discriminate | exact Hf | vm_compute; reflexivity].
    unfold digest_entry. f_equal.
Qed.

Lemma empty_file_is_not_hashed_witness :
  hash_file world_empty_file device_4 "/data/empty"
  = inl (CLError "/data/empty")
  /\ main world_empty_file run_args = HashingError (CLError "/data/empty")
  /\ hash_file world_empty_file device_4 "/data/abc"
     = inr ("/data/abc", "a9993e364706816aba3e25717850c26c9cd0d89d").
Proof.
  destruct (empty_file_is_not_hashed world_empty_file device_4 "/data/empty"
                                     eq_refl) as (H1 & _ & _ & _ & _ & H6).
  split; [exact H1|]. split; [vm_compute; reflexivity|].
  apply H6; reflexivity.
Defined.

End HostSpec.

(** ** Further properties of the kernel *)

Module KernelExtraFacts.
Import Machine Kernel Hex FIPS180 Props DigestProps.
Import MachineFacts KernelFacts CompressionFacts PaddingFacts.

Lemma hash_hex_cons b l :
  hash_hex (b :: l)
  = String (hex_digit (b / 16)) (String (hex_digit (b mod 16)) (hash_hex l)).
Proof. reflexivity. Qed.

Lemma hash_hex_length l : String.length (hash_hex l) = (2 * List.length l)%nat.
Proof.
  induction l as [|b l IH]; [reflexivity|].
  rewrite hash_hex_cons. cbn [String.length List.length]. rewrite IH. lia.
Qed.

Lemma hex_digit_checked n :
  0 <= n < 16 ->
  is_hex_char (hex_digit n) = true /\ hex_value (hex_digit n) = n.
Proof.
  intros Hn.
  assert (H : forallb (fun m => is_hex_char (hex_digit m)
                                && (hex_value (hex_digit m) =? m))
                      (range 0 16) = true) by reflexivity.
  rewrite forallb_forall in H.
  assert (Hin : In n (range 0 16)).
  { unfold range. apply in_map_iff. exists (Z.to_nat n).
    split; [lia | apply in_seq; lia]. }
  apply H, andb_true_iff in Hin. destruct Hin as [Hc Hv].
  split; [exact Hc | now apply Z.eqb_eq].
Qed.

Lemma hex_digit_char n : 0 <= n < 16 -> is_hex_char (hex_digit n) = true.
Proof. intros H. now apply hex_digit_checked. Qed.

Lemma hex_digit_value n : 0 <= n < 16 -> hex_value (hex_digit n) = n.
Proof. intros H. now apply hex_digit_checked. Qed.

Lemma hash_hex_chars l :
  all_bytes l ->
  Forall (fun c => is_hex_char c = true) (list_ascii_of_string (hash_hex l)).
Proof.
  induction 1 as [|b l Hb _ IH]; [constructor|].
  rewrite hash_hex_cons. cbn [list_ascii_of_string].
  constructor; [|constructor; [|exact IH]].
  - apply hex_digit_char. split; [apply Z.div_pos; lia|].
    apply Z.div_lt_upper_bound; lia.
  - apply hex_digit_char. apply Z.mod_pos_bound. lia.
Qed.

Lemma unhex_hash_hex l : all_bytes l -> unhex (hash_hex l) = l.
Proof.
  induction 1 as [|b l Hb _ IH]; [reflexivity|].
  rewrite hash_hex_cons. cbn [unhex]. rewrite IH. f_equal.
  rewrite !hex_digit_value.
  - symmetry. apply Z.div_mod. lia.
  - apply Z.mod_pos_bound. lia.
  - split; [apply Z.div_pos; lia|]. apply Z.div_lt_upper_bound; lia.
Qed.

Lemma sha1_kernel_bytes input lengths :
  sha1_kernel input lengths
  = flat_map (be_bytes 4) (state_list (chunk_loop input (load lengths idx))).
Proof. unfold sha1_kernel. apply write_output_bytes. Qed.

Lemma digest_shape h :
  List.length (flat_map (be_bytes 4) (state_list h)) = 20%nat
  /\ all_bytes (flat_map (be_bytes 4) (state_list h)).
Proof.
  destruct h as [[[[h0 h1] h2] h3] h4]. cbn [state_list flat_map].
  split.
  - rewrite !length_app, !be_bytes_length. reflexivity.
  - unfold all_bytes. rewrite !Forall_app.
    repeat split; try apply be_bytes_all_bytes. constructor.
Qed.

(** The chunk built for index [chunk_idx] reads the input only at positions
    below [bytes_used length]. *)
Lemma build_chunk_reads input1 input2 length chunk_idx :
  0 <= length < 2 ^ 31 ->
  0 <= chunk_idx <= length / 64 ->
  (forall pos, 0 <= pos < bytes_used length ->
               load input1 pos = load input2 pos) ->
  build_chunk input1 length chunk_idx = build_chunk input2 length chunk_idx.
Proof.
  intros Hl Hc Hagree.
  pose proof (Z.div_mod length 64 ltac:(lia)) as Hdm.
  pose proof (Z.mod_pos_bound length 64 ltac:(lia)) as Hmb.
  assert (Hq : length / 64 < 2 ^ 25) by (apply Z.div_lt_upper_bound; lia).
  assert (Hbyte : forall i, 0 <= i < 64 ->
            (chunk_idx < length / 64 \/ i < 56) ->
            chunk_byte input1 length (int (chunk_idx * 64 + i))
            = chunk_byte input2 length (int (chunk_idx * 64 + i))).
  { intros i Hi Hwhere. rewrite int_small by lia. unfold chunk_byte.
    destruct (Z.ltb_spec (chunk_idx * 64 + i) length); [|reflexivity].
    apply Hagree. unfold bytes_used.
    destruct (Z.ltb_spec (length mod 64) 56); lia. }
  destruct (Z.eq_dec chunk_idx (length / 64)) as [->|Hne].
  - assert (E : firstn 56 (fill_chunk input1 length (length / 64))
                 = firstn 56 (fill_chunk input2 length (length / 64))).
    { rewrite !fill_chunk_map, !firstn_map. apply map_ext_in.
      intros i Hin. change (firstn 56 (range 0 64)) with (range 0 56) in Hin.
      apply in_map_iff in Hin. destruct Hin as (n & <- & Hn).
      apply in_seq in Hn. change (Z.to_nat (56 - 0)) with 56%nat in Hn.
      apply Hbyte; lia. }
    rewrite <- (Z.quot_div_nonneg length 64) in * by lia.
    rewrite !build_chunk_last, E. reflexivity.
  - rewrite !build_chunk_inner by (rewrite Z.quot_div_nonneg; lia).
    rewrite !fill_chunk_map. apply map_ext_in.
    intros i Hin. apply in_map_iff in Hin. destruct Hin as (n & <- & Hn).
    apply in_seq in Hn. change (Z.to_nat (64 - 0)) with 64%nat in Hn.
    apply Hbyte; lia.
Qed.

Lemma sha1_kernel_reads input1 input2 length :
  0 <= length < 2 ^ 31 ->
  (forall pos, 0 <= pos < bytes_used length ->
               load input1 pos = load input2 pos) ->
  sha1_kernel input1 [length] = sha1_kernel input2 [length].
Proof.
  intros Hl Hagree. rewrite !sha1_kernel_bytes.
  change (load [length] idx) with length.
  rewrite !chunk_loop_fold.
  assert (E : processed_chunks input1 length = processed_chunks input2 length);
    [|now rewrite E].
  unfold processed_chunks. apply map_ext_in. intros ci Hin.
  unfold chunk_indices in Hin. rewrite Z.quot_div_nonneg in Hin by lia.
  apply in_map_iff in Hin. destruct Hin as (n & <- & Hn). apply in_seq in Hn.
  pose proof (Z.div_pos length 64 ltac:(lia) ltac:(lia)).
  apply build_chunk_reads; [lia | lia | exact Hagree].
Qed.

Lemma firstn_agree (l1 l2 : list Z) n pos :
  firstn n l1 = firstn n l2 -> 0 <= pos < Z.of_nat n ->
  load l1 pos = load l2 pos.
Proof.
  intros E Hpos. unfold load.
  pose proof (nth_firstn n l1 (Z.to_nat pos) 0) as H1.
  pose proof (nth_firstn n l2 (Z.to_nat pos) 0) as H2.
  destruct (Nat.ltb_spec (Z.to_nat pos) n); [|lia].
  rewrite <- H1, <- H2, E. reflexivity.
Qed.

End KernelExtraFacts.

Module KernelExtra.
Import Machine Kernel Hex FIPS180 Props DigestProps Examples.
Import MachineFacts KernelFacts CompressionFacts PaddingFacts KernelExtraFacts.
Local Open Scope string_scope.

(** X1: for a message of bytes shorter than 2^29 bytes whose length mod 64 is
    below 56, the 20 bytes the kernel writes are the reference SHA-1 digest,
    and so is the hexadecimal string made from them. *)
Theorem digest_is_reference_when_field_fits :
  forall M : list Z,
    all_bytes M ->
    (Z.of_nat (List.length M) < 2 ^ 29)%Z ->
    (Z.of_nat (List.length M) mod 64 < 56)%Z ->
    sha1_kernel M [Z.of_nat (List.length M)] = SHA1 M
    /\ unhex (hash_hex (sha1_kernel M [Z.of_nat (List.length M)])) = SHA1 M.
Proof.
  intros M HM Hsmall Hroom.
  pose proof (Refinement.kernel_matches_reference_when_field_fits
                M HM Hsmall Hroom) as E.
  split; [exact E|].
  rewrite unhex_hash_hex; [exact E|].
  rewrite sha1_kernel_bytes. apply digest_shape.
Qed.

Lemma digest_is_reference_when_field_fits_witness :
  sha1_kernel (bytes_of_string "abc") [3%Z] = SHA1 (bytes_of_string "abc")
  /\ unhex (hash_hex (sha1_kernel (bytes_of_string "abc") [3%Z]))
     = SHA1 (bytes_of_string "abc").
Proof.
  apply (digest_is_reference_when_field_fits (bytes_of_string "abc")).
  - repeat constructor; lia.
  - reflexivity.
  - reflexivity.
Defined.

(** X2: on 64-byte chunks of bytes, from any running state, the message
    schedule, the eighty rounds and the final additions of the kernel are the
    compression function of the reference, chunk after chunk. *)
Theorem chunk_compression_is_reference :
  forall (chunks : list (list Z)) (h : state),
    Forall (fun chunk => List.length chunk = 64%nat /\ all_bytes chunk) chunks ->
    state_list (fold_left process_chunk chunks h)
    = fold_left compress chunks (state_list h).
Proof.
  intros chunks h Hc. now apply fold_process_compress.
Qed.

Lemma chunk_compression_is_reference_witness :
  state_list (fold_left process_chunk [repeat 0%Z 64; repeat 255%Z 64] init_state)
  = fold_left compress [repeat 0%Z 64; repeat 255%Z 64] (state_list init_state).
Proof.
  apply chunk_compression_is_reference.
  repeat constructor; lia.
Defined.

(** X3: for a message shorter than 2^29 bytes whose length mod 64 is below
    56, the chunks the kernel compresses are exactly the 64-byte blocks of
    the message padded as the reference pads it. *)
Theorem chunks_are_padded_blocks :
  forall M : list Z,
    (Z.of_nat (List.length M) < 2 ^ 29)%Z ->
    (Z.of_nat (List.length M) mod 64 < 56)%Z ->
    processed_chunks M (Z.of_nat (List.length M))
    = parse (List.length (pad M) / 64) (pad M).
Proof.
  intros M Hsmall Hroom.
  pose proof (Z.div_mod (Z.of_nat (List.length M)) 64 ltac:(lia)) as Hdm.
  pose proof (Z.mod_pos_bound (Z.of_nat (List.length M)) 64 ltac:(lia)) as Hmb.
  pose proof (Z.div_pos (Z.of_nat (List.length M)) 64 ltac:(lia) ltac:(lia))
    as Hdp.
  rewrite Hdm at 1.
  apply (processed_chunks_parse
           M (Z.of_nat (List.length M) / 64) (Z.of_nat (List.length M) mod 64));
    lia.
Qed.

Lemma chunks_are_padded_blocks_witness :
  processed_chunks (repeat 7%Z 70) 70
  = parse (List.length (pad (repeat 7%Z 70)) / 64) (pad (repeat 7%Z 70)).
Proof.
  apply (chunks_are_padded_blocks (repeat 7%Z 70)).
  - simpl. lia.
  - reflexivity.
Defined.

(** X4: whatever the buffers hold, the kernel writes 20 bytes, and their
    rendering is 40 characters, each one of 0-9 and a-f. *)
Theorem digest_format :
  forall input lengths : list Z,
    List.length (sha1_kernel input lengths) = 20%nat
    /\ all_bytes (sha1_kernel input lengths)
    /\ String.length (hash_hex (sha1_kernel input lengths)) = 40%nat
    /\ Forall (fun c => is_hex_char c = true)
              (list_ascii_of_string (hash_hex (sha1_kernel input lengths))).
Proof.
  intros input lengths. rewrite sha1_kernel_bytes.
  destruct (digest_shape (chunk_loop input (load lengths idx))) as [Hlen Hb].
  split; [exact Hlen|]. split; [exact Hb|]. split.
  - rewrite hash_hex_length, Hlen. reflexivity.
  - now apply hash_hex_chars.
Qed.

(** X5: the hexadecimal rendering loses nothing: reading the string back
    two characters a byte gives the bytes, so different byte strings render
    differently. *)
Theorem hex_rendering_round_trip :
  forall l1 l2 : list Z,
    all_bytes l1 ->
    unhex (hash_hex l1) = l1
    /\ (all_bytes l2 -> hash_hex l1 = hash_hex l2 -> l1 = l2).
Proof.
  intros l1 l2 H1. split; [now apply unhex_hash_hex|].
  intros H2 E. rewrite <- (unhex_hash_hex l1 H1), <- (unhex_hash_hex l2 H2).
  now rewrite E.
Qed.

Lemma hex_rendering_round_trip_witness :
  unhex (hash_hex [0; 10; 255; 128]%Z) = [0; 10; 255; 128]%Z.
Proof.
  apply (hex_rendering_round_trip [0; 10; 255; 128]%Z []).
  repeat constructor; lia.
Defined.

(** X6: the kernel reads the input buffer only below [length]: two buffers
    that agree on their first [length] bytes give the same 20 bytes. *)
Theorem reads_only_first_length_bytes :
  forall (input1 input2 : list Z) (length : Z),
    (0 <= length < 2 ^ 31)%Z ->
    firstn (Z.to_nat length) input1 = firstn (Z.to_nat length) input2 ->
    sha1_kernel input1 [length] = sha1_kernel input2 [length].
Proof.
  intros input1 input2 length Hl E.
  apply sha1_kernel_reads; [exact Hl|].
  intros pos Hpos. apply (firstn_agree _ _ (Z.to_nat length)); [exact E|].
  unfold bytes_used in Hpos.
  pose proof (Z.div_mod length 64 ltac:(lia)) as Hdm.
  pose proof (Z.mod_pos_bound length 64 ltac:(lia)) as Hmb.
  destruct (Z.ltb_spec (length mod 64) 56); lia.
Qed.

Lemma reads_only_first_length_bytes_witness :
  sha1_kernel [97; 98; 99; 1; 2; 3]%Z [3%Z] = sha1_kernel [97; 98; 99]%Z [3%Z].
Proof.
  apply reads_only_first_length_bytes; [lia | reflexivity].
Defined.

(** X7: when [length mod 64] is 56 or more, the message bytes that stand
    at offsets 56..63 of the last chunk never reach the digest: two messages
    of that length that agree in front of them give the same 20 bytes. *)
Theorem tail_bytes_ignored_when_field_does_not_fit :
  forall (input1 input2 : list Z) (length : Z),
    (0 <= length < 2 ^ 31)%Z ->
    (56 <= length mod 64)%Z ->
    firstn (Z.to_nat (64 * (length / 64) + 56)) input1
    = firstn (Z.to_nat (64 * (length / 64) + 56)) input2 ->
    sha1_kernel input1 [length] = sha1_kernel input2 [length].
Proof.
  intros input1 input2 length Hl Hr E.
  apply sha1_kernel_reads; [exact Hl|].
  intros pos Hpos.
  apply (firstn_agree _ _ (Z.to_nat (64 * (length / 64) + 56))); [exact E|].
  unfold bytes_used in Hpos.
  pose proof (Z.div_pos length 64 ltac:(lia) ltac:(lia)).
  destruct (Z.ltb_spec (length mod 64) 56); lia.
Qed.

Lemma tail_bytes_ignored_when_field_does_not_fit_witness :
  sha1_kernel (repeat 97%Z 56 ++ [120%Z])%list [57%Z]
  = sha1_kernel (repeat 97%Z 56 ++ [121%Z])%list [57%Z]
  /\ SHA1 (repeat 97%Z 56 ++ [120%Z])%list
     <> SHA1 (repeat 97%Z 56 ++ [121%Z])%list.
Proof.
  split.
  - apply tail_bytes_ignored_when_field_does_not_fit;
      [lia | vm_compute; discriminate | reflexivity].
  - vm_compute. discriminate.
Defined.


End KernelExtra.

(** ** Further properties of the host program *)

Module HostExtraFacts.
Import Host Props RunProps Examples SelectionFacts HostFacts.
Local Open Scope string_scope.

Lemma select_best_device_head devices d :
  select_best_device devices = inr d <-> hd_error (sorted devices) = Some d.
Proof.
  unfold select_best_device, ret, raise.
  destruct (sorted devices) as [|x rest]; cbn [hd_error]; split; intros H;
    try discriminate; injection H as <-; reflexivity.
Qed.

Lemma key_lt_false_trans d1 d2 d3 :
  key_lt (key d2) (key d1) = false -> key_lt (key d3) (key d2) = false ->
  key_lt (key d3) (key d1) = false.
Proof.
  rewrite !key_lt_code. intros H1%Z.ltb_ge H2%Z.ltb_ge. apply Z.ltb_ge. lia.
Qed.

(** The head of the sorted list is the first device of the catalog among
    those of least key. *)
Lemma sorted_head_first_minimum devices :
  forall d,
    hd_error (sorted devices) = Some d ->
    exists pre post,
      devices = (pre ++ d :: post)%list
      /\ Forall (fun x => key_lt (key d) (key x) = true) pre
      /\ Forall (fun x => key_lt (key x) (key d) = false) post.
Proof.
  induction devices as [|x l IH]; intros d H; [discriminate|].
  rewrite sorted_head_cons in H.
  destruct (hd_error (sorted l)) as [y|] eqn:Hy.
  - destruct (key_lt (key y) (key x)) eqn:Hlt; injection H as <-.
    + destruct (IH y eq_refl) as (pre & post & -> & Hpre & Hpost).
      exists (x :: pre), post. split; [reflexivity|].
      split; [constructor; assumption | exact Hpost].
    + exists [], l. split; [reflexivity|]. split; [constructor|].
      apply Forall_forall. intros z Hz.
      destruct (sorted l) as [|y' rest] eqn:Hs; [discriminate|].
      injection Hy as ->.
      pose proof (sorted_head_least l y rest Hs z Hz) as Hyz.
      unfold key_le in Hyz. eapply key_lt_false_trans; eassumption.
  - injection H as <-. exists [], l. split; [reflexivity|].
    split; [constructor|].
    destruct (sorted l) as [|y rest] eqn:Hs; [|discriminate].
    pose proof (sorted_perm l) as P. rewrite Hs in P.
    apply Permutation_nil in P. subst l. constructor.
Qed.

Lemma choose_output_fresh w args p :
  choose_output w args = inr p -> path_exists w p = false.
Proof.
  assert (D : default_output w = inr p -> path_exists w p = false).
  { unfold default_output.
    destruct (path_exists w (path_join (getcwd w) ("output" ++ ".csv"))) eqn:E.
    - pose proof (try_names_seq (path_exists w) "output" (getcwd w) 1000 0) as T.
      fold (generate_unique_filename (path_exists w) "output" (getcwd w)) in T.
      destruct (generate_unique_filename (path_exists w) "output" (getcwd w))
        as [e|p']; [discriminate|].
      intros [= <-]. destruct T as (i & _ & -> & Hfree & _). exact Hfree.
    - intros [= <-]. exact E. }
  unfold choose_output. destruct (output args) as [o|]; [|exact D].
  destruct (String.eqb o ""); [exact D|].
  destruct (path_exists w (if negb (isabs o) then path_join (getcwd w) o else o))
    eqn:E; [discriminate|].
  intros [= <-]. exact E.
Qed.

Lemma choose_output_uncaught w args e :
  choose_output w args = inl (Uncaught e) -> e = FileExistsError.
Proof.
  assert (D : default_output w = inl (Uncaught e) -> e = FileExistsError).
  { unfold default_output.
    destruct (path_exists w (path_join (getcwd w) ("output" ++ ".csv")));
      [|discriminate].
    pose proof (try_names_seq (path_exists w) "output" (getcwd w) 1000 0) as T.
    fold (generate_unique_filename (path_exists w) "output" (getcwd w)) in T.
    destruct (generate_unique_filename (path_exists w) "output" (getcwd w))
      as [e'|p']; [|discriminate].
    intros [= <-]. now destruct T. }
  unfold choose_output. destruct (output args) as [o|]; [|exact D].
  destruct (String.eqb o ""); [exact D|].
  destruct (path_exists w _); discriminate.
Qed.

Lemma select_device_uncaught devices device_arg e :
  devices <> [] -> select_device devices device_arg <> inl (Uncaught e).
Proof.
  intros Hne. unfold select_device. destruct device_arg as [n|].
  - destruct (Z.ltb_spec n 0); [discriminate|].
    rewrite Z.geb_leb.
    destruct (Z.leb_spec (Z.of_nat (List.length devices)) n); [discriminate|].
    cbn [orb].
    destruct (nth_error devices (Z.to_nat n)) eqn:E; [discriminate|].
    apply nth_error_None in E. lia.
  - destruct (select_best_device_max devices Hne) as (d & -> & _). discriminate.
Qed.

Lemma find_devices_nonempty w devices :
  find_devices w = inr devices -> devices <> [].
Proof.
  unfold find_devices. destruct (platforms w) as [|[|d l] rest];
    try discriminate. intros [= <-]. discriminate.
Qed.

Lemma find_devices_uncaught w e : find_devices w <> inl (Uncaught e).
Proof.
  unfold find_devices. destruct (platforms w) as [|[|d l] rest]; discriminate.
Qed.

Lemma list_ascii_of_string_app (a b : string) :
  list_ascii_of_string (a ++ b)
  = (list_ascii_of_string a ++ list_ascii_of_string b)%list.
Proof.
  induction a as [|c a IH]; cbn [String.append list_ascii_of_string app];
    [reflexivity | now rewrite IH].
Qed.

Lemma drop_while_all P l :
  forallb P l = true -> forall rest, drop_while P (l ++ rest) = drop_while P rest.
Proof.
  induction l as [|c l IH]; cbn [forallb app drop_while]; intros H rest;
    [reflexivity|].
  apply andb_true_iff in H. destruct H as [-> H]. now apply IH.
Qed.

(** [dirname] of a name without slash joined to a directory is the
    directory, for the root and for a directory that does not end in a
    slash. *)
Lemma dirname_path_join directory name :
  forallb (fun c => negb (Ascii.eqb c "/")) (list_ascii_of_string name) = true ->
  directory = "/"
  \/ (directory <> "" /\ ends_with_sep directory = false) ->
  dirname (path_join directory name) = directory.
Proof.
  intros Hname Hdir.
  assert (Hstart : startswith name "/" = false).
  { unfold startswith. destruct name as [|c rest]; [reflexivity|].
    cbn [list_ascii_of_string forallb] in Hname.
    apply andb_true_iff in Hname. destruct Hname as [Hc _].
    cbn [String.prefix]. destruct (Ascii.ascii_dec "/" c) as [<-|]; 
      [discriminate Hc | reflexivity]. }
  assert (Hrev : forallb (fun c => negb (Ascii.eqb c "/"))
                         (rev (list_ascii_of_string name)) = true).
  { apply forallb_forall. intros c Hc. apply in_rev in Hc.
    rewrite forallb_forall in Hname. now apply Hname. }
  assert (Hchars : list_ascii_of_string (path_join directory name)
                   = (list_ascii_of_string directory
                      ++ (if orb (String.eqb directory "") (ends_with_sep directory)
                          then [] else ["/"%char])
                      ++ list_ascii_of_string name)%list).
  { unfold path_join. rewrite Hstart.
    destruct (orb (String.eqb directory "") (ends_with_sep directory));
      rewrite !list_ascii_of_string_app; reflexivity. }
  unfold dirname. rewrite Hchars, !rev_app_distr, <- !app_assoc.
  rewrite (drop_while_all _ _ Hrev).
  destruct Hdir as [->|[Hne Hsep]]; [reflexivity|].
  destruct (String.eqb_spec directory ""); [contradiction|].
  rewrite Hsep. cbn [orb rev app]. unfold ends_with_sep in Hsep.
  destruct (rev (list_ascii_of_string directory)) as [|c rest] eqn:E.
  - exfalso. apply Hne.
    rewrite <- (string_of_list_ascii_of_string directory).
    rewrite <- (rev_involutive (list_ascii_of_string directory)), E.
    reflexivity.
  - cbn [drop_while forallb]. change ("/" =? "/")%char with true.
    cbn [negb andb].
    assert (F : forallb (fun c0 => Ascii.eqb c0 "/") ("/"%char :: c :: rest)
                = false) by (cbn [forallb]; rewrite Hsep; reflexivity).
    assert (D : drop_while (fun c0 => Ascii.eqb c0 "/") ("/"%char :: c :: rest)
                = c :: rest) by (cbn [drop_while]; rewrite Hsep; reflexivity).
    rewrite F, D, <- E, rev_involutive.
    apply string_of_list_ascii_of_string.
Qed.

End HostExtraFacts.

Module HostExtra.
Import Host Props RunProps Examples SelectionFacts HostFacts HostExtraFacts.
Local Open Scope string_scope.

(** X8: the default choice is stable: the device returned is the first of
    the catalog among those of least key; every device in front of it has a
    strictly greater key, no device behind it has a smaller one. *)
Theorem default_choice_is_first_minimum :
  forall (devices : list Device) (d : Device),
    select_best_device devices = inr d ->
    exists pre post,
      devices = (pre ++ d :: post)%list
      /\ Forall (fun x => key_lt (key d) (key x) = true) pre
      /\ Forall (fun x => key_lt (key x) (key d) = false) post.
Proof.
  intros devices d H. apply sorted_head_first_minimum.
  now apply select_best_device_head.
Qed.

Lemma default_choice_is_first_minimum_witness :
  exists pre post,
    [tie_nvidia; tie_other; tie_intel; tie_other]
    = (pre ++ tie_other :: post)%list
    /\ Forall (fun x => key_lt (key tie_other) (key x) = true) pre
    /\ Forall (fun x => key_lt (key x) (key tie_other) = false) post.
Proof.
  apply (default_choice_is_first_minimum
           [tie_nvidia; tie_other; tie_intel; tie_other] tie_other).
  reflexivity.
Defined.

(** X9: among devices of the same memory the default choice takes an
    NVIDIA device only when all of them are NVIDIA, an AMD device only when
    all of them are AMD or NVIDIA, and an Intel device only when none of them
    has an unrecognized vendor: at a tie Intel goes before AMD, and AMD
    before NVIDIA. *)
Theorem memory_tie_vendor_order :
  forall (devices : list Device) (s d : Device),
    select_best_device devices = inr s ->
    In d devices ->
    global_mem_size d = global_mem_size s ->
    (startswith (lower (vendor s)) "nvidia" = true ->
     startswith (lower (vendor d)) "nvidia" = true)
    /\ (startswith (lower (vendor s)) "amd" = true ->
        startswith (lower (vendor d)) "amd" = true
        \/ startswith (lower (vendor d)) "nvidia" = true)
    /\ (startswith (lower (vendor s)) "intel" = true -> recognized d = true).
Proof.
  intros devices s d Hsel Hin Hmem.
  assert (Hle : key_le s d).
  { apply select_best_device_head in Hsel.
    destruct (sorted devices) as [|x rest] eqn:E; [discriminate|].
    injection Hsel as ->. now apply (sorted_head_least devices s rest). }
  apply key_le_code in Hle. revert Hle.
  unfold key, key_code, recognized. rewrite Hmem.
  destruct (startswith (lower (vendor s)) "nvidia"),
    (startswith (lower (vendor s)) "amd"),
    (startswith (lower (vendor s)) "intel"),
    (startswith (lower (vendor d)) "nvidia"),
    (startswith (lower (vendor d)) "amd"),
    (startswith (lower (vendor d)) "intel"); cbn [orb]; intros Hle;
    (split; [|split]); intros H; try reflexivity; try discriminate H;
    try lia; auto.
Qed.

Lemma memory_tie_vendor_order_witness :
  (startswith (lower (vendor tie_intel)) "nvidia" = true ->
   startswith (lower (vendor tie_nvidia)) "nvidia" = true)
  /\ (startswith (lower (vendor tie_intel)) "amd" = true ->
      startswith (lower (vendor tie_nvidia)) "amd" = true
      \/ startswith (lower (vendor tie_nvidia)) "nvidia" = true)
  /\ (startswith (lower (vendor tie_intel)) "intel" = true ->
      recognized tie_nvidia = true).
Proof.
  apply (memory_tie_vendor_order [tie_nvidia; tie_intel] tie_intel tie_nvidia).
  - reflexivity.
  - now left.
  - reflexivity.
Defined.

(** X10: a run that writes its report writes it to a path that did not
    exist when the path was chosen, in a directory it may write to. *)
Theorem written_output_is_fresh :
  forall (w : World) (args : Args) (p : string) (hashes : list (string * string)),
    main w args = Written p hashes ->
    path_exists w p = false /\ access_W w (dirname p) = true.
Proof.
  intros w args p hashes H.
  destruct (main_written w args p hashes H)
    as (dir & devices & context & files & _ & _ & _ & Ho & Hw & _).
  split; [eapply choose_output_fresh, Ho | exact Hw].
Qed.

Lemma written_output_is_fresh_witness :
  path_exists world_output_taken "/work/output_002.txt" = false
  /\ access_W world_output_taken (dirname "/work/output_002.txt") = true.
Proof.
  eapply (written_output_is_fresh world_output_taken run_args).
  vm_compute. reflexivity.
Defined.

(** X11: neither index expression of [main] can fail: [devices[args.device]]
    is reached only with an index inside the list and [sorted_devices[0]]
    only with a non-empty list, so no run ends with [IndexError]; with a
    device id outside the first platform's list the run stops with the
    out-of-range message, and a device that is selected is one of the
    list. *)
Theorem index_expressions_stay_in_range :
  forall (w : World) (args : Args),
    main w args <> Uncaught IndexError
    /\ (forall devices,
          query_devices w = inr devices ->
          match select_device devices (device args) with
          | inr d => In d devices
          | inl stop =>
              exists n,
                device args = Some n
                /\ stop = Stopped (DeviceOutOfRange n)
                /\ (n < 0 \/ Z.of_nat (List.length devices) <= n)%Z
          end).
Proof.
  intros w args. split.
  - unfold main. destruct (list_flag args).
    { unfold run_listing. destruct (orb _ _); discriminate. }
    destruct (path args) as [dir|]; [|discriminate].
    destruct (String.eqb dir ""); [discriminate|].
    destruct (isdir w dir); [|discriminate].
    destruct (access_R w dir); [|discriminate]. cbn [negb].
    destruct (choose_output w args) as [stop|p] eqn:Ho.
    { intros ->. apply choose_output_uncaught in Ho. discriminate. }
    destruct (access_W w (dirname p)); [|discriminate]. cbn [negb].
    destruct (query_devices w) as [stop|devices] eqn:Hf.
    { destruct (query_devices_cases w) as [E|E]; rewrite E in Hf.
      - intros ->. now apply find_devices_uncaught in Hf.
      - injection Hf as <-. discriminate. }
    apply query_devices_ok, find_devices_nonempty in Hf.
    destruct (select_device devices (device args)) as [stop|context] eqn:Hs.
    { intros ->.
      now apply (select_device_uncaught devices (device args) IndexError) in Hf. }
    destruct (setup_fault w context); [discriminate|].
    destruct (scan_directory w dir (recursive args)); [|discriminate].
    unfold hash_and_write. destruct (perform_hashing _ _ _); discriminate.
  - intros devices Hq. apply query_devices_ok, find_devices_nonempty in Hq.
    destruct (select_device devices (device args)) as [stop|d] eqn:Hs.
    + revert Hs. unfold select_device. destruct (device args) as [n|].
      * destruct (Z.ltb_spec n 0).
        { intros [= <-]. exists n. repeat split. lia. }
        rewrite Z.geb_leb.
        destruct (Z.leb_spec (Z.of_nat (List.length devices)) n).
        { intros [= <-]. exists n. repeat split. lia. }
        cbn [orb].
        destruct (nth_error devices (Z.to_nat n)) eqn:E; [discriminate|].
        apply nth_error_None in E. lia.
      * destruct (select_best_device_max devices Hq) as (d & -> & _).
        discriminate.
    + eapply HostSpec.select_device_in, Hs.
Qed.

Lemma index_expressions_stay_in_range_witness :
  main world_one_fault (mkArgs (Some "/data") false (Some 3%Z) None false)
  <> Uncaught IndexError
  /\ exists n,
       Some 3%Z = Some n
       /\ Stopped (DeviceOutOfRange 3) = Stopped (DeviceOutOfRange n)
       /\ (n < 0 \/ 3 <= n)%Z.
Proof.
  destruct (index_expressions_stay_in_range
              world_one_fault
              (mkArgs (Some "/data") false (Some 3%Z) None false)) as [H1 H2].
  split; [exact H1|]. exact (H2 catalog_124 eq_refl).
Defined.

(** X12: whether a run gets as far as the call of [scan_directory], and
    the message or exception it ends with when it does not, is settled
    without what the scan returns or raises, the file contents, the pyopencl
    calls on files or the memory the launches start from: every check of
    lines 193-252 comes before the first look into the directory. *)
Theorem early_outcome_ignores_files :
  forall (w : World) (args : Args)
         (scan : string -> bool -> option (list string))
         (read : string -> option (list Z))
         (fault : Device -> string -> bool)
         (stale : Device -> string -> Kernel.memory),
    reached_scan (main (with_files w scan read fault stale) args)
    = reached_scan (main w args)
    /\ (reached_scan (main w args) = false ->
        main (with_files w scan read fault stale) args = main w args).
Proof.
  intros w args scan read fault stale. unfold main.
  change (run_listing (with_files w scan read fault stale))
    with (run_listing w).
  change (isdir (with_files w scan read fault stale)) with (isdir w).
  change (access_R (with_files w scan read fault stale)) with (access_R w).
  change (access_W (with_files w scan read fault stale)) with (access_W w).
  change (setup_fault (with_files w scan read fault stale))
    with (setup_fault w).
  change (choose_output (with_files w scan read fault stale) args)
    with (choose_output w args).
  change (query_devices (with_files w scan read fault stale))
    with (query_devices w).
  change (scan_directory (with_files w scan read fault stale)) with scan.
  destruct (list_flag args); [split; reflexivity|].
  destruct (path args) as [dir|]; [|split; reflexivity].
  destruct (String.eqb dir ""); [split; reflexivity|].
  destruct (isdir w dir); [|split; reflexivity].
  destruct (access_R w dir); [|split; reflexivity]. cbn [negb].
  destruct (choose_output w args) as [stop|p]; [split; reflexivity|].
  destruct (access_W w (dirname p)); [|split; reflexivity]. cbn [negb].
  destruct (query_devices w) as [stop|devices]; [split; reflexivity|].
  destruct (select_device devices (device args)) as [stop|context];
    [split; reflexivity|].
  destruct (setup_fault w context); [split; reflexivity|].
  unfold hash_and_write.
  destruct (scan dir (recursive args)) as [files1|],
    (scan_directory w dir (recursive args)) as [files2|];
    repeat match goal with
           | |- context [perform_hashing ?a ?b ?c] =>
               destruct (perform_hashing a b c)
           end;
    split; try reflexivity; discriminate.
Qed.

Lemma early_outcome_ignores_files_witness :
  main (with_files world_second_platform (fun _ _ => None) (fun _ => None)
                   (fun _ _ => true) (fun _ _ => leftover 1)) run_args
  = main world_second_platform run_args.
Proof.
  apply (early_outcome_ignores_files world_second_platform run_args).
  reflexivity.
Defined.

Lemma nth_error_enumerate {A} (l : list A) n x :
  nth_error l n = Some x -> nth_error (enumerate l) n = Some (n, x).
Proof.
  unfold enumerate.
  assert (G : forall s (l : list A) n x,
             nth_error l n = Some x ->
             nth_error (combine (seq s (List.length l)) l) n = Some ((s + n)%nat, x)).
  { clear. intros s l. revert s. induction l as [|y l IH]; intros s [|n] x H;
      try discriminate.
    - injection H as <-. cbn. now rewrite Nat.add_0_r.
    - cbn [List.length seq combine nth_error]. rewrite (IH (S s) n x H).
      f_equal. f_equal. lia. }
  intros H. now rewrite (G 0%nat l n x H).
Qed.

(** X13: for the first platform the listing and [--device] agree: the
    line printed at position [n] carries the id [n] and describes the device
    that [--device n] selects. *)
Theorem listing_id_selects_on_first_platform :
  forall (devices : list Device) (rest : list (list Device)) (n : nat) (d : Device),
    nth_error devices n = Some d ->
    nth_error (list_opencl_devices (devices :: rest)) n
    = Some (device_line (n, d))
    /\ select_device devices (Some (Z.of_nat n)) = inr d.
Proof.
  intros devices rest n d H. split.
  - unfold list_opencl_devices. cbn [flat_map].
    fold device_line.
    change (map (fun p : nat * Device =>
                   "Device ID: " ++ decimal (fst p) ++ ", Name: " ++ name (snd p)
                   ++ ", Type: " ++ device_type (snd p)) (enumerate devices))
      with (map device_line (enumerate devices)).
    rewrite nth_error_app1.
    + rewrite nth_error_map, (nth_error_enumerate devices n d H). reflexivity.
    + rewrite length_map. apply nth_error_Some.
      rewrite (nth_error_enumerate devices n d H). discriminate.
  - unfold select_device.
    assert (n < List.length devices)%nat by (apply nth_error_Some; congruence).
    destruct (Z.ltb_spec (Z.of_nat n) 0); [lia|]. rewrite Z.geb_leb.
    destruct (Z.leb_spec (Z.of_nat (List.length devices)) (Z.of_nat n)); [lia|].
    cbn [orb]. now rewrite Nat2Z.id, H.
Qed.

Lemma listing_id_selects_on_first_platform_witness :
  nth_error (list_opencl_devices [catalog_124; catalog_tie]) 2
  = Some "Device ID: 2, Name: Gamma, Type: CPU"
  /\ select_device catalog_124 (Some 2%Z) = inr device_4.
Proof.
  apply (listing_id_selects_on_first_platform catalog_124 [catalog_tie] 2 device_4).
  reflexivity.
Defined.

Lemma first_failure_or_none w context file_paths :
  (forall q, In q file_paths -> exists r, hash_file w context q = inr r)
  \/ exists pre p post e,
       file_paths = (pre ++ p :: post)%list
       /\ (forall q, In q pre -> exists r, hash_file w context q = inr r)
       /\ hash_file w context p = inl e.
Proof.
  induction file_paths as [|q rest IH].
  - left. intros q [].
  - destruct (hash_file w context q) as [e|r] eqn:Hq.
    + right. exists [], q, rest, e. split; [reflexivity|].
      split; [intros ? []| exact Hq].
    + destruct IH as [Hall|(pre & p & post & e & -> & Hpre & Hp)].
      * left. intros q' [<-|H]; [eauto | now apply Hall].
      * right. exists (q :: pre), p, post, e. split; [reflexivity|].
        split; [|exact Hp]. intros q' [<-|H]; [eauto | now apply Hpre].
Qed.

(** X14: [perform_hashing] returns a list exactly when every file of the
    batch hashes: the list then has one entry per file, in batch order, each
    carrying its file's path; otherwise it raises what the first failing file
    raised, all files in front of it having hashed. *)
Theorem perform_hashing_outcomes :
  forall (w : World) (context : Device) (file_paths : list string),
    match perform_hashing w context file_paths with
    | inr hashes =>
        map fst hashes = file_paths
        /\ Forall2 (fun q r => hash_file w context q = inr r) file_paths hashes
    | inl e =>
        exists pre p post,
          file_paths = (pre ++ p :: post)%list
          /\ (forall q, In q pre -> exists r, hash_file w context q = inr r)
          /\ hash_file w context p = inl e
    end.
Proof.
  intros w context file_paths.
  destruct (first_failure_or_none w context file_paths)
    as [Hall|(pre & p & post & e & -> & Hpre & Hp)].
  - destruct (hashing_loop_success w context file_paths Hall [])
      as (entries & E & F).
    unfold perform_hashing. rewrite E. cbn [app]. split; [|exact F].
    clear E Hall. induction F as [|q r qs rs Hq _ IH]; [reflexivity|].
    cbn [map]. rewrite IH. f_equal.
    apply hash_file_ok in Hq. destruct Hq as (data & _ & _ & _ & ->).
    reflexivity.
  - unfold perform_hashing.
    rewrite (hashing_loop_failure w context pre p post e Hpre Hp).
    exists pre, p, post. auto.
Qed.

(** X15: in a written report, the digest beside a file whose content is a
    byte string shorter than 2^29 bytes with length mod 64 below 56 is the
    hexadecimal reference SHA-1 digest of that content. *)
Theorem report_digest_is_sha1 :
  forall (w : World) (args : Args) (p : string)
         (hashes : list (string * string)) (f h : string) (data : list Z),
    main w args = Written p hashes ->
    In (f, h) hashes ->
    read_file w f = Some data ->
    all_bytes data ->
    (Z.of_nat (List.length data) < 2 ^ 29)%Z ->
    (Z.of_nat (List.length data) mod 64 < 56)%Z ->
    h = Hex.hash_hex (FIPS180.SHA1 data).
Proof.
  intros w args p hashes f h data Hmain Hin Hread Hbytes Hsmall Hroom.
  destruct (main_written w args p hashes Hmain)
    as (dir & devices & context & files & _ & _ & _ & _ & _ & _ & _ & _ & Hp).
  destruct (hashing_loop_entries w context _ [] hashes Hp (f, h) Hin)
    as [[]|(q & _ & Hq)].
  apply hash_file_ok in Hq. destruct Hq as (data' & R' & _ & _ & Heq).
  unfold digest_entry in Heq. injection Heq as -> ->.
  rewrite Hread in R'. injection R' as <-.
  now rewrite Refinement.kernel_matches_reference_when_field_fits.
Qed.

Lemma report_digest_is_sha1_witness :
  "86f7e437faa5a7fce15d1ddcb9eaeaea377667b8"
  = Hex.hash_hex (FIPS180.SHA1 (Hex.bytes_of_string "a")).
Proof.
  eapply (report_digest_is_sha1 (world [catalog_124] five_files [] []) run_args
                                _ _ "/data/a" _ (Hex.bytes_of_string "a")).
  - vm_compute. reflexivity.
  - left. reflexivity.
  - reflexivity.
  - repeat constructor; lia.
  - reflexivity.
  - reflexivity.
Defined.

(** X21: without [--output], when the working directory is the root or
    does not end in a slash, the output path chosen (the default one or an
    alternate) lies directly in the working directory: its [dirname], the
    directory checked for write permission, is the working directory. *)
Theorem default_output_in_working_directory :
  forall (w : World) (args : Args) (p : string),
    output args = None \/ output args = Some "" ->
    getcwd w = "/" \/ (getcwd w <> "" /\ ends_with_sep (getcwd w) = false) ->
    choose_output w args = inr p ->
    dirname p = getcwd w.
Proof.
  intros w args p Hout Hcwd.
  assert (E : choose_output w args = default_output w)
    by (unfold choose_output; destruct Hout as [-> | ->]; reflexivity).
  rewrite E. unfold default_output.
  destruct (path_exists w (path_join (getcwd w) ("output" ++ ".csv"))).
  - pose proof (try_names_seq (path_exists w) "output" (getcwd w) 1000 0) as T.
    fold (generate_unique_filename (path_exists w) "output" (getcwd w)) in T.
    destruct (generate_unique_filename (path_exists w) "output" (getcwd w))
      as [e|p']; [discriminate|].
    intros [= <-]. destruct T as (i & Hi & -> & _).
    unfold candidate. apply dirname_path_join; [|exact Hcwd].
    assert (H : forallb
                  (fun i => forallb (fun c => negb (Ascii.eqb c "/"))
                              (list_ascii_of_string
                                 ("output" ++ "_" ++ format_03d i ++ ".txt")))
                  (seq 0 1000) = true) by (vm_compute; reflexivity).
    rewrite forallb_forall in H. apply H, in_seq. lia.
  - intros [= <-]. apply dirname_path_join; [reflexivity | exact Hcwd].
Qed.

Lemma default_output_in_working_directory_witness :
  dirname "/work/output_002.txt" = getcwd world_output_taken.
Proof.
  apply (default_output_in_working_directory world_output_taken run_args).
  - now left.
  - right. split; [discriminate | reflexivity].
  - reflexivity.
Defined.

End HostExtra.

(** ** Facts about the directory scan and the report rows *)

Module ScanFacts.
Import Host Scan.

Lemma scan_flat_in path entries p :
  In p (scan_flat path entries) -> In p (walk_files path entries).
Proof.
  unfold scan_flat, walk_files. rewrite !in_flat_map.
  intros (e & He & Hp). exists e. split; [exact He|].
  destruct e as [name regular readable|]; [|exact Hp].
  destruct regular, readable; cbn [andb] in Hp; try contradiction; exact Hp.
Qed.

Lemma scan_flat_regular path entries :
  Forall (fun e => match e with
                   | File _ regular _ => regular = true
                   | Dir _ _ _ _ => True
                   end) entries ->
  walk_files path entries = scan_flat path entries.
Proof.
  induction 1 as [|e entries He _ IH]; [reflexivity|].
  unfold walk_files, scan_flat in *. cbn [flat_map]. rewrite IH.
  destruct e as [name regular readable|]; [|reflexivity].
  subst regular. reflexivity.
Qed.

End ScanFacts.

Module ReportFacts.
Import Host Report.

(** [rfind_from] returns either the fallback, the character being absent, or
    the position of its last occurrence. *)
Lemma rfind_from_spec c s :
  forall i last,
    (rfind_from c s i last = last /\ ~ In c s)
    \/ (i <= rfind_from c s i last < i + Z.of_nat (List.length s)
        /\ nth (Z.to_nat (rfind_from c s i last - i)) s c = c
        /\ nth_error s (Z.to_nat (rfind_from c s i last - i)) = Some c
        /\ ~ In c (skipn (Z.to_nat (rfind_from c s i last - i) + 1) s))%Z.
Proof.
  induction s as [|x rest IH]; intros i last; cbn [rfind_from].
  - left. split; [reflexivity | intros []].
  - destruct (Ascii.eqb_spec x c) as [->|Hne].
    + right. destruct (IH (i + 1)%Z i) as [[E Hnot]|(Hr & Hn & Hn' & Hs)].
      * rewrite E. replace (Z.to_nat (i - i)) with 0%nat by lia.
        cbn [List.length nth nth_error skipn Nat.add].
        repeat split; try lia; try reflexivity. exact Hnot.
      * cbn [List.length].
        replace (Z.to_nat (rfind_from c rest (i + 1) i - i))
          with (S (Z.to_nat (rfind_from c rest (i + 1) i - (i + 1)))) by lia.
        cbn [nth nth_error skipn Nat.add].
        repeat split; try lia; assumption.
    + destruct (IH (i + 1)%Z last) as [[E Hnot]|(Hr & Hn & Hn' & Hs)].
      * left. split; [exact E|]. intros [H|H]; [congruence | contradiction].
      * right. cbn [List.length].
        replace (Z.to_nat (rfind_from c rest (i + 1) last - i))
          with (S (Z.to_nat (rfind_from c rest (i + 1) last - (i + 1)))) by lia.
        cbn [nth nth_error skipn Nat.add].
        repeat split; try lia; assumption.
Qed.

Lemma rfind_spec c s :
  (rfind c s = (-1)%Z /\ ~ In c s)
  \/ (0 <= rfind c s < Z.of_nat (List.length s)
      /\ nth_error s (Z.to_nat (rfind c s)) = Some c
      /\ ~ In c (skipn (Z.to_nat (rfind c s) + 1) s))%Z.
Proof.
  unfold rfind.
  destruct (rfind_from_spec c s 0 (-1)) as [H|(Hr & _ & Hn & Hs)];
    [left; exact H | right].
  rewrite Z.sub_0_r in *. repeat split; try lia; assumption.
Qed.

Lemma in_skipn {A} (x : A) n l : In x (skipn n l) -> In x l.
Proof.
  intros H. rewrite <- (firstn_skipn n l). apply in_or_app. now right.
Qed.

Lemma in_firstn {A} (x : A) n l : In x (firstn n l) -> In x l.
Proof.
  intros H. rewrite <- (firstn_skipn n l). apply in_or_app. now left.
Qed.

Lemma skipn_at {A} (l : list A) n x :
  nth_error l n = Some x -> skipn n l = x :: skipn (S n) l.
Proof.
  revert n. induction l as [|y l IH]; intros [|n] H; try discriminate.
  - injection H as <-. reflexivity.
  - cbn [skipn]. now apply IH.
Qed.

(** [basename] cuts behind the last slash. *)
Lemma basename_spec p :
  exists head,
    list_ascii_of_string p = (head ++ list_ascii_of_string (basename p))%list
    /\ ~ In "/"%char (list_ascii_of_string (basename p))
    /\ (head = [] \/ exists front, head = (front ++ ["/"%char])%list).
Proof.
  unfold basename. set (chars := list_ascii_of_string p).
  rewrite list_ascii_of_string_of_list_ascii.
  destruct (rfind_spec "/" chars) as [[E Hnot]|(Hr & Hn & Hs)].
  - rewrite E. exists []. cbn [Z.add Z.to_nat skipn app]. auto.
  - exists (firstn (Z.to_nat (rfind "/" chars)) chars ++ ["/"%char])%list.
    replace (Z.to_nat (rfind "/" chars + 1))
      with (S (Z.to_nat (rfind "/" chars))) by lia.
    split; [|split].
    + rewrite <- app_assoc. cbn [app]. symmetry.
      now apply firstn_skipn_middle.
    + now rewrite Nat.add_1_r in Hs.
    + right. eauto.
Qed.

(** [splitext] cuts in front of the last dot of the last component, when
    something other than dots stands in front of it there. *)
Lemma splitext_spec p :
  list_ascii_of_string p
  = (list_ascii_of_string (fst (splitext p))
     ++ list_ascii_of_string (snd (splitext p)))%list
  /\ (snd (splitext p) = EmptyString
      \/ exists rest,
           list_ascii_of_string (snd (splitext p)) = "."%char :: rest
           /\ ~ In "."%char rest /\ ~ In "/"%char rest
           /\ exists ch, In ch (list_ascii_of_string (fst (splitext p)))
                         /\ ch <> "."%char /\ ch <> "/"%char).
Proof.
  unfold splitext. set (chars := list_ascii_of_string p).
  destruct (Z.gtb_spec (rfind "." chars) (rfind "/" chars)) as [Hgt|Hle];
    [|cbn [fst snd]; split; [now rewrite app_nil_r | now left]].
  destruct (existsb _ _) eqn:Hex;
    [|cbn [fst snd]; split; [now rewrite app_nil_r | now left]].
  cbn [fst snd]. rewrite !list_ascii_of_string_of_list_ascii.
  split; [now rewrite firstn_skipn|]. right.
  destruct (rfind_spec "." chars) as [[E _]|(Hr & Hn & Hs)].
  { destruct (rfind_spec "/" chars) as [[E' _]|(Hr' & _)]; lia. }
  exists (skipn (S (Z.to_nat (rfind "." chars))) chars).
  split; [now apply skipn_at|].
  rewrite Nat.add_1_r in Hs. split; [exact Hs|].
  assert (Hsep : forall n, (Z.to_nat (rfind "/" chars + 1) <= n)%nat ->
                           ~ In "/"%char (skipn n chars)).
  { intros n Hn' Hin.
    destruct (rfind_spec "/" chars) as [[E' Hnot]|(Hr' & _ & Hs')].
    - apply Hnot. eapply in_skipn, Hin.
    - apply Hs'.
      replace n with ((n - (Z.to_nat (rfind "/" chars) + 1))
                      + (Z.to_nat (rfind "/" chars) + 1))%nat in Hin by lia.
      rewrite <- skipn_skipn in Hin. eapply in_skipn, Hin. }
  split; [apply Hsep; lia|].
  apply existsb_exists in Hex. destruct Hex as (ch & Hin & Hch).
  exists ch.
  assert (Hin' : In ch (skipn (Z.to_nat (rfind "/" chars + 1))
                              (firstn (Z.to_nat (rfind "." chars)) chars))).
  { rewrite firstn_skipn_comm in Hin.
    replace (Z.to_nat (rfind "/" chars + 1)
             + Z.to_nat (rfind "." chars - (rfind "/" chars + 1)))%nat
      with (Z.to_nat (rfind "." chars)) in Hin.
    - exact Hin.
    - destruct (rfind_spec "/" chars) as [[E' _]|(Hr' & _)]; lia. }
  split; [eapply in_skipn, Hin'|]. split.
  - destruct (Ascii.eqb_spec ch "."); [discriminate | assumption].
  - intros ->. rewrite skipn_firstn_comm in Hin'. apply in_firstn in Hin'.
    revert Hin'. apply Hsep. lia.
Qed.

End ReportFacts.

Module ScanExtra.
Import Host Scan ScanFacts.
Local Open Scope string_scope.

(** X16: every path the flat scan returns is also returned by the
    recursive scan of the same directory. *)
Theorem flat_scan_within_recursive_scan :
  forall (path : string) (entries : list entry),
    incl (Scan.scan_directory path entries false)
         (Scan.scan_directory path entries true).
Proof.
  intros path entries p Hp. unfold Scan.scan_directory in *.
  apply in_or_app. left. now apply scan_flat_in.
Qed.

Lemma flat_scan_within_recursive_scan_witness :
  In "/d/a"
     (Scan.scan_directory "/d" [Dir "s" false true [File "x" true true];
                                File "a" true true] true).
Proof.
  apply (flat_scan_within_recursive_scan
           "/d" [Dir "s" false true [File "x" true true]; File "a" true true]).
  now left.
Defined.

(** X17: when every entry of the directory that is not a directory is a
    regular file, the recursive scan is the flat scan followed by what lies
    below the sub-directories, in their order. *)
Theorem recursive_scan_is_flat_scan_then_below :
  forall (path : string) (entries : list entry),
    Forall (fun e => match e with
                     | File _ regular _ => regular = true
                     | Dir _ _ _ _ => True
                     end) entries ->
    Scan.scan_directory path entries true
    = (Scan.scan_directory path entries false
       ++ flat_map (walk_below path) entries)%list.
Proof.
  intros path entries H. unfold Scan.scan_directory.
  now rewrite scan_flat_regular.
Qed.

Lemma recursive_scan_is_flat_scan_then_below_witness :
  Scan.scan_directory "/d" [Dir "s" false true [File "x" true true];
                            File "a" true true; File "b" true false] true
  = ["/d/a"; "/d/s/x"].
Proof.
  rewrite recursive_scan_is_flat_scan_then_below; [reflexivity|].
  repeat constructor.
Defined.

(** X18: a readable entry that is neither a directory nor a regular file
    (a FIFO, a socket, a device) is returned by the recursive scan; the flat
    scan does not return its path, unless another entry has that path. *)
Theorem special_file_only_in_recursive_scan :
  forall (path : string) (entries : list entry) (name : string),
    In (File name false true) entries ->
    In (path_join path name) (Scan.scan_directory path entries true)
    /\ ((forall e, In e entries ->
                   path_join path (entry_name e) = path_join path name ->
                   e = File name false true) ->
        ~ In (path_join path name) (Scan.scan_directory path entries false)).
Proof.
  intros path entries name Hin. unfold Scan.scan_directory. split.
  - apply in_or_app. left. unfold walk_files. apply in_flat_map.
    exists (File name false true). split; [exact Hin | now left].
  - intros Huniq Hflat. unfold scan_flat in Hflat.
    apply in_flat_map in Hflat. destruct Hflat as (e & He & Hp).
    destruct e as [n regular readable|]; [|contradiction].
    destruct regular; [|contradiction].
    destruct readable; [|contradiction].
    destruct Hp as [Hp|[]].
    specialize (Huniq (File n true true) He Hp). discriminate.
Qed.

Lemma special_file_only_in_recursive_scan_witness :
  In "/d/pipe" (Scan.scan_directory "/d" [File "a" true true;
                                           File "pipe" false true] true)
  /\ ~ In "/d/pipe" (Scan.scan_directory "/d" [File "a" true true;
                                                File "pipe" false true] false).
Proof.
  destruct (special_file_only_in_recursive_scan
              "/d" [File "a" true true; File "pipe" false true] "pipe")
    as [H1 H2].
  - right. now left.
  - split; [exact H1|]. apply H2.
    intros e [<-|[<-|[]]] E; [discriminate E | reflexivity].
Defined.

End ScanExtra.

Module ReportExtra.
Import Host Report ReportFacts.
Local Open Scope string_scope.

(** X19: the report is the header row followed by one row of four fields
    per entry, in order, with the entry's path first and its digest last; the
    FILE_NAME field is what follows the last slash of the path and holds no
    slash. *)
Theorem report_rows_and_file_names :
  forall hashes : list (string * string),
    List.length (report_rows hashes) = S (List.length hashes)
    /\ map (fun row => (nth 0 row "", nth 3 row "")) (tl (report_rows hashes))
       = hashes
    /\ Forall (fun row =>
                 List.length row = 4%nat
                 /\ ~ In "/"%char (list_ascii_of_string (nth 1 row ""))
                 /\ exists head,
                      list_ascii_of_string (nth 0 row "")
                      = (head ++ list_ascii_of_string (nth 1 row ""))%list
                      /\ (head = [] \/ exists front,
                                         head = (front ++ ["/"%char])%list))
              (tl (report_rows hashes)).
Proof.
  intros hashes. unfold report_rows. cbn [tl List.length].
  rewrite length_map. split; [reflexivity|]. split.
  - rewrite map_map. rewrite <- (map_id hashes) at 2.
    apply map_ext. intros [file hash]. reflexivity.
  - apply Forall_forall. intros row Hrow. apply in_map_iff in Hrow.
    destruct Hrow as ([file hash] & <- & _).
    cbn [report_row List.length nth]. split; [reflexivity|].
    destruct (basename_spec file) as (head & E & Hno & Hhead).
    split; [exact Hno|]. exists head. split; assumption.
Qed.

(** X20: in every data row the FILE_EXTENSION field is a final part of the
    FILE_NAME field: either it is empty, or it is a dot followed by
    characters none of which is a dot, and then something other than dots
    stands in front of it in the name. *)
Theorem report_extension_field :
  forall hashes : list (string * string),
    Forall (fun row =>
              exists stem,
                list_ascii_of_string (nth 1 row "")
                = (stem ++ list_ascii_of_string (nth 2 row ""))%list
                /\ (nth 2 row "" = ""
                    \/ exists rest,
                         list_ascii_of_string (nth 2 row "") = "."%char :: rest
                         /\ ~ In "."%char rest
                         /\ exists ch, In ch stem /\ ch <> "."%char))
           (tl (report_rows hashes)).
Proof.
  intros hashes. unfold report_rows. cbn [tl].
  apply Forall_forall. intros row Hrow. apply in_map_iff in Hrow.
  destruct Hrow as ([file hash] & <- & _). cbn [report_row nth].
  destruct (splitext_spec (basename file)) as [E Hext].
  exists (list_ascii_of_string (fst (splitext (basename file)))).
  split; [exact E|].
  destruct Hext as [H|(rest & Hr & Hdot & _ & ch & Hch & Hne & _)];
    [now left | right].
  exists rest. split; [exact Hr|]. split; [exact Hdot|]. eauto.
Qed.

End ReportExtra.
